(** * zk: notebook location, optional strings, schema migration and the
      note store's relational invariants.

    Shallow embedding of
    - [internal/util/opt] (optional strings),
    - [internal/core/zk] (locating, opening and creating a notebook),
    - [internal/adapter/sqlite] (opening the database, [Migrate] and the
      schema it installs),
    - [internal/adapter] ([Container.Database] and [Container.index]). *)

From Stdlib Require Import ZArith Lia.
From stdpp Require Import base option list strings gmap.
From Equations Require Import Equations.

Set Default Proof Using "Type".

Local Open Scope string_scope.
Local Open Scope list_scope.
Local Open Scope Z_scope.

(** ** Errors

    Go's [error] values, as the closed sum of the errors met below:
    [zk.ErrNotebookNotFound], [fmt.Errorf] with its format and argument,
    the wrappers built by [errors.Wrapper] and [errors.Wrap], the errors
    of the SQL engine (a message and the object it names), and the errors
    of the operating system and of the configuration parser. *)
Inductive error : Type :=
| ErrNotebookNotFound (p : list string)
| Errorf (format : string) (arg : list string)
| Wrapped (msg : string) (err : error)
| SqlError (msg : string) (object : string)
| OtherError (msg : string).

#[global] Instance error_eq_dec : EqDecision error.
Proof. solve_decision. Defined.

(** A Go result pair [(T, error)] in which exactly one side is meaningful. *)
Inductive result (A : Type) : Type :=
| Ok (a : A)
| Err (err : error).
Arguments Ok {A} a.
Arguments Err {A} err.

(** ** Optional strings ([package opt]) *)

Module opt.

(** [type String struct { Value *string }]: the pointer is either nil or
    refers to a string; only the pointee is ever observed below. *)
Record String := mkString { Value : option string }.

#[global] Instance String_eq_dec : EqDecision String.
Proof. solve_decision. Defined.

(** [var NullString = String{nil}] *)
Definition NullString : String := mkString None.

(** [func NewString(value string) String] *)
Definition NewString (value : string) : String := mkString (Some value).

(** [func NewNotEmptyString(value string) String] *)
Definition NewNotEmptyString (value : string) : String :=
  if decide (value = "") then NullString else NewString value.

(** [func (s String) IsNull() bool] *)
Definition IsNull (s : String) : bool :=
  match Value s with None => true | Some _ => false end.

(** [func (s String) IsEmpty() bool]: [!s.IsNull() && *s.Value == ""] *)
Definition IsEmpty (s : String) : bool :=
  negb (IsNull s) &&
  match Value s with Some v => bool_decide (v = "") | None => false end.

(** [func (s String) NonEmpty() String] *)
Definition NonEmpty (s : String) : String :=
  if IsEmpty s then NullString else s.

(** [func (s String) Or(other String) String] *)
Definition Or (s other : String) : String :=
  if IsNull s then other else s.

(** [func (s String) OrString(alt string) String] *)
Definition OrString (s : String) (alt : string) : String :=
  if IsNull s then NewString alt else s.

(** [func (s String) Unwrap() string] *)
Definition Unwrap (s : String) : string :=
  match Value s with None => "" | Some v => v end.

Lemma IsEmpty_spec (s : String) :
  IsEmpty s = true <-> Value s = Some "".
Proof.
  destruct s as [[v|]]; unfold IsEmpty, IsNull; simpl.
  - rewrite bool_decide_eq_true. split; [intros ->; reflexivity | congruence].
  - split; discriminate.
Qed.

Lemma NonEmpty_null_iff (s : String) :
  NonEmpty s = NullString <-> Value s = None \/ Value s = Some "".
Proof.
  unfold NonEmpty. destruct (IsEmpty s) eqn:E.
  - apply IsEmpty_spec in E. split; auto.
  - split.
    + intros ->. left. reflexivity.
    + intros [H | H].
      * destruct s as [v]; simpl in H; subst; reflexivity.
      * apply IsEmpty_spec in H. congruence.
Qed.

(** C10. For every optional string [s], [s.NonEmpty()] is [NullString]
    exactly when [s] is null or holds the empty string; [NonEmpty] is
    idempotent; and for every string [v], [NewNotEmptyString(v).IsNull()]
    is true if and only if [v] is the empty string. *)
Theorem NonEmpty_NewNotEmptyString_spec :
  (forall s : String,
      NonEmpty s = NullString <-> (IsNull s = true \/ Value s = Some "")) /\
  (forall s : String, NonEmpty (NonEmpty s) = NonEmpty s) /\
  (forall v : string, IsNull (NewNotEmptyString v) = true <-> v = "").
Proof.
  split; [|split].
  - intros s. rewrite NonEmpty_null_iff. unfold IsNull.
    destruct (Value s); split; intros [H | H]; auto; discriminate.
  - intros s. unfold NonEmpty at 2 3. destruct (IsEmpty s) eqn:E.
    + reflexivity.
    + unfold NonEmpty. rewrite E. reflexivity.
  - intros v. unfold NewNotEmptyString.
    destruct (decide (v = "")) as [-> | Hne]; simpl.
    + split; reflexivity.
    + split; [discriminate | contradiction].
Qed.

(** [func (s String) Equal(other String) bool]: the pointers are equal,
    or both are set and their pointees are equal.  Equal pointers are
    both nil or have the same pointee, so the answer depends on the
    pointees only. *)
Definition Equal (s other : String) : bool :=
  match Value s, Value other with
  | None, None => true
  | Some v, Some v' => bool_decide (v = v')
  | _, _ => false
  end.

(** [func (s String) String() string] *)
Definition String_ (s : String) : string := Unwrap s.

(** The double quote character. *)
Definition quote : string :=
  Strings.String.String
    (Ascii.Ascii false true false false false true false false) EmptyString.

(** [func (s String) MarshalJSON() ([]byte, error)]: the value between
    double quotes, as [fmt.Sprintf] prints it through [String()]; the
    error is always nil. *)
Definition MarshalJSON (s : String) : string * option error :=
  (quote +:+ String_ s +:+ quote, None).

(** X14. [Or] keeps the first of two optional strings that has a value:
    [NullString] is neutral on both sides, the operation is associative,
    and its result is null only when both arguments are. *)
Theorem Or_first_value (s t u : String) :
  Or NullString s = s /\ Or s NullString = s /\
  Or (Or s t) u = Or s (Or t u) /\
  (IsNull (Or s t) = IsNull s && IsNull t) /\
  (IsNull s = false -> Or s t = s).
Proof.
  destruct s as [[v|]], t as [[v'|]], u as [[v''|]]; repeat split;
    try reflexivity; discriminate.
Qed.

(** X15. [Unwrap] reads back what the constructors stored: the value given to
    [NewString] and to [NewNotEmptyString] (the empty string included),
    the value of [s] after [NonEmpty], and, after [OrString], the value
    of [s] or the alternative when [s] is null; [OrString] never yields a
    null string. *)
Theorem Unwrap_reads_back (v alt : string) (s : String) :
  Unwrap (NewString v) = v /\
  Unwrap (NewNotEmptyString v) = v /\
  Unwrap (NonEmpty s) = Unwrap s /\
  Unwrap (OrString s alt) = (if IsNull s then alt else Unwrap s) /\
  IsNull (OrString s alt) = false.
Proof.
  split; [reflexivity|]. split.
  { unfold NewNotEmptyString. destruct (decide (v = "")) as [-> | ?];
      reflexivity. }
  split.
  { unfold NonEmpty. destruct (IsEmpty s) eqn:E; [|reflexivity].
    apply IsEmpty_spec in E. unfold Unwrap. rewrite E. reflexivity. }
  destruct s as [[v'|]]; split; reflexivity.
Qed.

(** X16. [Equal] holds exactly between optional strings that are both null or
    hold the same value; in particular it tells the null string from the
    empty one, which [Unwrap] and [MarshalJSON] render alike. *)
Theorem Equal_tells_null_from_empty (s t : String) :
  (Equal s t = true <-> s = t) /\
  Equal NullString (NewString "") = false /\
  Unwrap NullString = Unwrap (NewString "") /\
  MarshalJSON NullString = MarshalJSON (NewString "") /\
  (MarshalJSON s = MarshalJSON t <-> Unwrap s = Unwrap t).
Proof.
  split; [|split; [|split; [|split]]]; try reflexivity.
  - destruct s as [[v|]], t as [[v'|]]; unfold Equal; simpl;
      try (split; [discriminate | intros [=]]); [|tauto].
    rewrite bool_decide_eq_true. split; [intros ->; reflexivity | congruence].
  - unfold MarshalJSON, String_. split.
    + intros [= H]. revert H. generalize (Unwrap s) (Unwrap t).
      intros a b H.
      assert (Hinj : forall x y z, x +:+ y = x +:+ z -> y = z).
      { intros x. induction x as [|c x IH]; intros y z; simpl;
          [auto | intros [= E]; auto]. }
      assert (Hsnoc : forall x y q, x +:+ q = y +:+ q -> x = y).
      { intros x y q Hq.
        assert (Hlen : forall a b, String.length (a +:+ b)
                                   = (String.length a + String.length b)%nat).
        { intros a0 b0. induction a0 as [|c0 a0 IHa]; simpl;
            [reflexivity | rewrite IHa; reflexivity]. }
        assert (L : String.length x = String.length y).
        { apply (f_equal String.length) in Hq.
          rewrite !Hlen in Hq. lia. }
        revert y Hq L. induction x as [|c x IH]; intros [|c' y] Hq L;
          simpl in *; try discriminate; [reflexivity|].
        injection Hq as -> Hq. f_equal. apply IH; [exact Hq | lia]. }
      apply Hinj in H. apply Hsnoc in H. exact H.
    + intros ->. reflexivity.
Qed.

End opt.

(** ** Locating, opening and creating a notebook ([package zk]) *)

Module zk.

(** A clean absolute path, as the list of its components below the
    filesystem root: ["/"] is [[]], ["/a/b"] is [["a"; "b"]].  On such a
    path [filepath.Abs] is the identity and never fails, [filepath.IsAbs]
    holds, and the guard [currentPath == "."] of [locate] is never taken. *)
Definition abs_path := list string.

(** [filepath.Dir]: the parent directory; the root is its own parent. *)
Definition Dir (p : abs_path) : abs_path := removelast p.

(** [filepath.Join(p, rel)] for a relative [rel] given by its components. *)
Definition Join (p : abs_path) (rel : list string) : abs_path := p ++ rel.

(** [defaultTemplate] of the source. *)
Definition defaultTemplate : string := "# {{title}}

{{content}}
".

Section Notebook.

(** The state of the filesystem and the helpers of [util/paths] and of the
    configuration loader, which the source imports. *)
Context {fs Config : Type}.
(** [paths.DirExists(path) (bool, error)] *)
Variable DirExists : fs -> abs_path -> bool * option error.
(** [paths.WriteString(path, content) error] *)
Variable WriteString : abs_path -> string -> fs -> fs * option error.
(** [OpenConfig(path, parentConfig) (Config, error)] *)
Variable OpenConfig : fs -> abs_path -> Config -> result Config.
(** The text of the constant [defaultConfig]. *)
Variable defaultConfig : string.

(** [type Zk struct { Path; Config; workingDir }] *)
Record Zk := mkZk { Path : abs_path; Config_ : Config; workingDir : abs_path }.

Lemma Dir_length_lt (c : string) (cs : abs_path) :
  (length (Dir (c :: cs)) < length (c :: cs))%nat.
Proof.
  unfold Dir.
  destruct (exists_last (l := c :: cs)) as (l' & a & E); [discriminate|].
  rewrite E, removelast_last, length_app. simpl. lia.
Qed.

(** The closure [locate] of [locateRoot]; [path] is the variable it
    captures, [w] the filesystem it inspects. *)
Equations? locate (w : fs) (path currentPath : abs_path) : result abs_path
  by wf (length currentPath) lt :=
locate w path [] := Err (ErrNotebookNotFound path);
locate w path (c :: cs) with DirExists w (Join (c :: cs) [".zk"]) := {
  | (_, Some err) => Err err
  | (true, None) => Ok (c :: cs)
  | (false, None) => locate w path (Dir (c :: cs)) }.
Proof. apply Dir_length_lt. Qed.

(** [func locateRoot(path string) (string, error)] *)
Definition locateRoot (w : fs) (path : abs_path) : result abs_path :=
  locate w path path.

(** [func Open(originalPath string, parentConfig Config)], returning [*Zk] and [error] *)
Definition Open (w : fs) (originalPath : abs_path) (parentConfig : Config)
  : result Zk :=
  let wrap := Wrapped "open failed" in
  match locateRoot w originalPath with
  | Err err => Err (wrap err)
  | Ok path =>
      match OpenConfig w (Join path [".zk"; "config.toml"]) parentConfig with
      | Err err => Err (wrap err)
      | Ok config => Ok (mkZk path config originalPath)
      end
  end.

(** [func Create(path string) error]; the filesystem after the call is
    returned with the error. *)
Definition Create (w : fs) (path : abs_path) : fs * option error :=
  let wrap := Wrapped "init failed" in
  match locateRoot w path with
  | Ok existingPath =>
      (w, Some (wrap (Errorf "a notebook already exists in %v" existingPath)))
  | Err _ =>
      let (w1, err) := WriteString (Join path [".zk"; "config.toml"]) defaultConfig w in
      match err with
      | Some err => (w1, Some (wrap err))
      | None =>
          let (w2, err) :=
            WriteString (Join path [".zk"; "templates"; "default.md"]) defaultTemplate w1 in
          match err with
          | Some err => (w2, Some (wrap err))
          | None => (w2, None)
          end
      end
  end.

(** *** Specification of [locateRoot] *)

(** The directory check that [locate] performs on the candidate [a]. *)
Definition dir_check (w : fs) (a : abs_path) : bool * option error :=
  DirExists w (Join a [".zk"]).

(** [a] contains a [.zk] directory. *)
Definition has_notebook_dir (w : fs) (a : abs_path) : Prop :=
  dir_check w a = (true, None).

(** [a] is [P] or one of its ancestor directories, the root included. *)
Definition ancestor_or_self (a P : abs_path) : Prop := a `prefix_of` P.

(** [r] is the deepest ancestor of [P] ([P] included), other than the
    filesystem root, that contains a [.zk] directory. *)
Definition deepest_notebook (w : fs) (P r : abs_path) : Prop :=
  r <> [] /\ ancestor_or_self r P /\ has_notebook_dir w r /\
  forall a, a <> [] -> ancestor_or_self a P -> has_notebook_dir w a ->
            ancestor_or_self a r.

Lemma Dir_prefix (p : abs_path) : Dir p `prefix_of` p.
Proof.
  unfold Dir. destruct p as [|c cs]; [reflexivity|].
  destruct (exists_last (l := c :: cs)) as (l' & a & E); [discriminate|].
  rewrite E, removelast_last. apply prefix_app_r. reflexivity.
Qed.

Lemma Dir_length (c : string) (cs : abs_path) :
  length (c :: cs) = S (length (Dir (c :: cs))).
Proof.
  unfold Dir.
  destruct (exists_last (l := c :: cs)) as (l' & a & E); [discriminate|].
  rewrite E, removelast_last, length_app. simpl. lia.
Qed.

Lemma prefix_same_length (a b P : abs_path) :
  a `prefix_of` P -> b `prefix_of` P -> length a = length b -> a = b.
Proof.
  intros Ha Hb Hl.
  destruct (prefix_weak_total a b P Ha Hb) as [H | H].
  - apply prefix_length_eq; [assumption | lia].
  - symmetry. apply prefix_length_eq; [assumption | lia].
Qed.

Lemma prefix_by_length (a b P : abs_path) :
  a `prefix_of` P -> b `prefix_of` P -> (length a <= length b)%nat ->
  a `prefix_of` b.
Proof.
  intros Ha Hb Hl.
  destruct (prefix_weak_total a b P Ha Hb) as [H | H]; [assumption|].
  assert (b = a) as -> by (apply prefix_length_eq; [assumption | lia]).
  reflexivity.
Qed.

(** What a run of [locate] from [currentPath] establishes, given that
    every candidate below [currentPath] was checked and had no [.zk]. *)
Definition locate_post (w : fs) (path : abs_path) (res : result abs_path)
  : Prop :=
  match res with
  | Ok r =>
      r <> [] /\ r `prefix_of` path /\ dir_check w r = (true, None) /\
      forall a, a `prefix_of` path -> (length r < length a)%nat ->
                dir_check w a = (false, None)
  | Err e =>
      (e = ErrNotebookNotFound path /\
       forall a, a <> [] -> a `prefix_of` path -> dir_check w a = (false, None))
      \/
      (exists r b, r <> [] /\ r `prefix_of` path /\
                   dir_check w r = (b, Some e) /\
                   forall a, a `prefix_of` path -> (length r < length a)%nat ->
                             dir_check w a = (false, None))
  end.

Lemma locate_spec (w : fs) (path currentPath : abs_path) :
  currentPath `prefix_of` path ->
  (forall a, a `prefix_of` path -> (length currentPath < length a)%nat ->
             dir_check w a = (false, None)) ->
  locate_post w path (locate w path currentPath).
Proof.
  funelim (locate w path currentPath); intros Hpre Hbelow.
  - simpl. left. split; [reflexivity|].
    intros a Hne Ha. apply Hbelow; [assumption|].
    destruct a; [contradiction | simpl; lia].
  - simpl. right. exists (c :: cs), b. repeat split; try assumption.
    discriminate.
  - simpl. repeat split; try assumption. discriminate.
  - apply H.
    + etransitivity; [apply Dir_prefix | exact Hpre].
    + intros a Ha Hlen. rewrite (Dir_length c cs) in Hbelow.
      destruct (decide (length a = S (length (Dir (c :: cs))))) as [E | NE].
      * rewrite <- (Dir_length c cs) in E.
        rewrite (prefix_same_length a (c :: cs) path Ha Hpre E).
        exact Heq.
      * apply Hbelow; [assumption | lia].
Qed.

Lemma locateRoot_spec (w : fs) (path : abs_path) :
  locate_post w path (locateRoot w path).
Proof.
  apply locate_spec; [reflexivity|].
  intros a Ha Hlen. apply prefix_length in Ha. lia.
Qed.

Lemma deepest_notebook_unique (w : fs) (P r r' : abs_path) :
  deepest_notebook w P r -> deepest_notebook w P r' -> r = r'.
Proof.
  intros (Hne & Hp & Hn & Hd) (Hne' & Hp' & Hn' & Hd').
  apply (anti_symm prefix); [apply Hd' | apply Hd]; assumption.
Qed.

Lemma locateRoot_Ok_deepest (w : fs) (P r : abs_path) :
  locateRoot w P = Ok r -> deepest_notebook w P r.
Proof.
  intros E. pose proof (locateRoot_spec w P) as H. rewrite E in H.
  destruct H as (Hne & Hp & Hc & Hbelow).
  repeat split; try assumption.
  intros a Hane Ha Hzk.
  apply (prefix_by_length a r P); [assumption | assumption |].
  destruct (decide (length a <= length r)%nat) as [|Hgt]; [assumption|].
  unfold has_notebook_dir in Hzk. rewrite Hbelow in Hzk by (auto; lia).
  discriminate.
Qed.

Lemma locateRoot_Err_not_found (w : fs) (P : abs_path) (e : error) :
  (forall a, ancestor_or_self a P -> (dir_check w a).2 = None) ->
  locateRoot w P = Err e ->
  e = ErrNotebookNotFound P /\
  forall a, a <> [] -> ancestor_or_self a P -> ~ has_notebook_dir w a.
Proof.
  intros Hstat E. pose proof (locateRoot_spec w P) as H. rewrite E in H.
  destruct H as [(-> & Hall) | (r & b & Hne & Hp & Hc & _)].
  - split; [reflexivity|]. intros a Hane Ha Hzk.
    unfold has_notebook_dir in Hzk. rewrite Hall in Hzk by assumption.
    discriminate.
  - specialize (Hstat r Hp). rewrite Hc in Hstat. discriminate.
Qed.

(** C8 (amended). For every clean absolute path [P] on whose ancestors no
    [.zk] directory check fails: [Open(P)] succeeds exactly when some
    ancestor of [P] other than the filesystem root ([P] included) contains
    a [.zk] directory and the configuration file of the deepest such
    ancestor loads; the notebook root returned is that deepest ancestor;
    and when no ancestor other than the filesystem root contains [.zk],
    [Open] returns [ErrNotebookNotFound] naming [P], wrapped as an
    "open failed" error. *)
Theorem Open_spec (w : fs) (P : abs_path) (parentConfig : Config) :
  (forall a, ancestor_or_self a P -> (dir_check w a).2 = None) ->
  (forall z,
      Open w P parentConfig = Ok z <->
      deepest_notebook w P (Path z) /\ workingDir z = P /\
      OpenConfig w (Join (Path z) [".zk"; "config.toml"]) parentConfig
        = Ok (Config_ z)) /\
  ((forall a, a <> [] -> ancestor_or_self a P -> ~ has_notebook_dir w a) ->
   Open w P parentConfig
     = Err (Wrapped "open failed" (ErrNotebookNotFound P))).
Proof.
  intros Hstat. unfold Open.
  destruct (locateRoot w P) as [r | e] eqn:E.
  - apply locateRoot_Ok_deepest in E. split.
    + intros z. split.
      * destruct (OpenConfig w (Join r [".zk"; "config.toml"]) parentConfig)
          as [config | err] eqn:EC; [|discriminate].
        intros [= <-]. simpl. auto.
      * intros (Hd & Hwd & HC).
        rewrite (deepest_notebook_unique w P r (Path z) E Hd), HC.
        destruct z; simpl in *; subst; reflexivity.
    + intros Hnone. destruct E as (Hne & Hp & Hzk & _).
      exfalso. exact (Hnone r Hne Hp Hzk).
  - destruct (locateRoot_Err_not_found w P e Hstat E) as (-> & Hnone).
    split; [|reflexivity].
    intros z. split; [discriminate|].
    intros ((Hne & Hp & Hzk & _) & _). exfalso. exact (Hnone _ Hne Hp Hzk).
Qed.

(** C9 (amended). For every clean absolute path [path] on whose ancestors
    no [.zk] directory check fails: when [path] or one of its ancestors
    other than the filesystem root contains a [.zk] directory, [Create]
    returns an "init failed" error stating that a notebook already exists
    in the deepest such ancestor and leaves the filesystem as it was; when
    none does, it writes the default [config.toml] and then the default
    note template under [path/.zk], returning nil when both writes
    succeed and the failing write's error, wrapped as "init failed",
    otherwise (the template is not written after a failed first write). *)
Theorem Create_spec (w : fs) (path : abs_path) :
  (forall a, ancestor_or_self a path -> (dir_check w a).2 = None) ->
  (forall r, deepest_notebook w path r ->
     Create w path
       = (w, Some (Wrapped "init failed"
                     (Errorf "a notebook already exists in %v" r)))) /\
  ((forall a, a <> [] -> ancestor_or_self a path -> ~ has_notebook_dir w a) ->
   let config_toml := Join path [".zk"; "config.toml"] in
   let default_md := Join path [".zk"; "templates"; "default.md"] in
   (forall w1 w2,
       WriteString config_toml defaultConfig w = (w1, None) ->
       WriteString default_md defaultTemplate w1 = (w2, None) ->
       Create w path = (w2, None)) /\
   (forall w1 err,
       WriteString config_toml defaultConfig w = (w1, Some err) ->
       Create w path = (w1, Some (Wrapped "init failed" err))) /\
   (forall w1 w2 err,
       WriteString config_toml defaultConfig w = (w1, None) ->
       WriteString default_md defaultTemplate w1 = (w2, Some err) ->
       Create w path = (w2, Some (Wrapped "init failed" err)))).
Proof.
  intros Hstat. unfold Create.
  destruct (locateRoot w path) as [r | e] eqn:E.
  - apply locateRoot_Ok_deepest in E. split.
    + intros r' Hd. rewrite (deepest_notebook_unique w path r r' E Hd).
      reflexivity.
    + intros Hnone. destruct E as (Hne & Hp & Hzk & _).
      exfalso. exact (Hnone r Hne Hp Hzk).
  - destruct (locateRoot_Err_not_found w path e Hstat E) as (-> & Hnone).
    split.
    + intros r (Hne & Hp & Hzk & _). exfalso. exact (Hnone _ Hne Hp Hzk).
    + intros _. cbv zeta. repeat split.
      * intros w1 w2 E1 E2. rewrite E1, E2. reflexivity.
      * intros w1 err E1. rewrite E1. reflexivity.
      * intros w1 w2 err E1 E2. rewrite E1, E2. reflexivity.
Qed.

End Notebook.

(** *** A small concrete filesystem, for the examples *)

(** The directories and the files present; no operation on it fails. *)
Record simple_fs := mkSimpleFs {
  dirs : list abs_path;
  files : list (abs_path * string)
}.

Definition simple_DirExists (w : simple_fs) (p : abs_path)
  : bool * option error :=
  (bool_decide (p ∈ dirs w), None).

(** Writing a file creates its parent directories. *)
Definition simple_WriteString (p : abs_path) (content : string)
  (w : simple_fs) : simple_fs * option error :=
  (mkSimpleFs (Dir p :: Dir (Dir p) :: dirs w) ((p, content) :: files w), None).

(** A configuration loader that accepts every file. *)
Definition simple_OpenConfig (w : simple_fs) (p : abs_path) (parent : unit)
  : result unit := Ok tt.

(** Only the filesystem root holds a [.zk] directory. *)
Definition root_notebook_fs : simple_fs := mkSimpleFs [[".zk"]] [].

(** A notebook at ["/home/nb"]. *)
Definition home_notebook_fs : simple_fs :=
  mkSimpleFs [["home"; "nb"; ".zk"]] [].

(** C8 as stated fails: with a [.zk] directory in the filesystem root, an
    ancestor of ["/notes"] contains [.zk], yet [Open] does not succeed; it
    reports that no notebook was found. *)
Lemma Open_root_notebook_not_found :
  (exists a, ancestor_or_self a ["notes"] /\
             has_notebook_dir simple_DirExists root_notebook_fs a) /\
  ~ (exists z, Open simple_DirExists simple_OpenConfig
                 root_notebook_fs ["notes"] tt = Ok z) /\
  Open simple_DirExists simple_OpenConfig root_notebook_fs ["notes"] tt
    = Err (Wrapped "open failed" (ErrNotebookNotFound ["notes"])).
Proof.
  split; [|split].
  - exists []. split; [apply prefix_nil | reflexivity].
  - intros [z Hz]. vm_compute in Hz. discriminate.
  - vm_compute. reflexivity.
Qed.

Lemma Open_spec_witness :
  (forall a, ancestor_or_self a ["home"; "nb"; "daily"] ->
             (dir_check simple_DirExists home_notebook_fs a).2 = None) /\
  (forall z,
      Open simple_DirExists simple_OpenConfig home_notebook_fs
        ["home"; "nb"; "daily"] tt = Ok z <->
      deepest_notebook simple_DirExists home_notebook_fs
        ["home"; "nb"; "daily"] (Path z) /\
      workingDir z = ["home"; "nb"; "daily"] /\
      simple_OpenConfig home_notebook_fs
        (Join (Path z) [".zk"; "config.toml"]) tt = Ok (Config_ z)) /\
  ((forall a, a <> [] -> ancestor_or_self a ["home"; "nb"; "daily"] ->
              ~ has_notebook_dir simple_DirExists home_notebook_fs a) ->
   Open simple_DirExists simple_OpenConfig home_notebook_fs
     ["home"; "nb"; "daily"] tt
     = Err (Wrapped "open failed"
              (ErrNotebookNotFound ["home"; "nb"; "daily"]))).
Proof.
  split.
  - intros a _. reflexivity.
  - apply (Open_spec simple_DirExists simple_OpenConfig home_notebook_fs
             ["home"; "nb"; "daily"] tt).
    intros a _. reflexivity.
Defined.

Example Open_home_notebook :
  Open simple_DirExists simple_OpenConfig home_notebook_fs
    ["home"; "nb"; "daily"] tt
  = Ok (mkZk ["home"; "nb"] tt ["home"; "nb"; "daily"]).
Proof. vm_compute. reflexivity. Qed.

(** C9 as stated fails: with a [.zk] directory in the filesystem root, an
    ancestor of ["/notes"] contains [.zk], yet [Create] reports no
    existing notebook: it returns nil and writes both files. *)
Lemma Create_root_notebook_writes :
  (exists a, ancestor_or_self a ["notes"] /\
             has_notebook_dir simple_DirExists root_notebook_fs a) /\
  exists w',
    Create simple_DirExists simple_WriteString "defaultConfig"
      root_notebook_fs ["notes"] = (w', None) /\
    files w' =
      [(["notes"; ".zk"; "templates"; "default.md"], defaultTemplate);
       (["notes"; ".zk"; "config.toml"], "defaultConfig")].
Proof.
  split.
  - exists []. split; [apply prefix_nil | reflexivity].
  - eexists. split; vm_compute; reflexivity.
Qed.

Lemma Create_spec_witness :
  (forall a, ancestor_or_self a ["home"; "nb"; "daily"] ->
             (dir_check simple_DirExists home_notebook_fs a).2 = None) /\
  (forall r,
      deepest_notebook simple_DirExists home_notebook_fs
        ["home"; "nb"; "daily"] r ->
      Create simple_DirExists simple_WriteString "defaultConfig"
        home_notebook_fs ["home"; "nb"; "daily"]
      = (home_notebook_fs,
         Some (Wrapped "init failed"
                 (Errorf "a notebook already exists in %v" r)))).
Proof.
  split.
  - intros a _. reflexivity.
  - apply (Create_spec simple_DirExists simple_WriteString "defaultConfig"
             home_notebook_fs ["home"; "nb"; "daily"]).
    intros a _. reflexivity.
Defined.

Example Create_inside_notebook :
  Create simple_DirExists simple_WriteString "defaultConfig"
    home_notebook_fs ["home"; "nb"; "daily"]
  = (home_notebook_fs,
     Some (Wrapped "init failed"
             (Errorf "a notebook already exists in %v" ["home"; "nb"]))).
Proof. vm_compute. reflexivity. Qed.

(** *** Directory checks that fail, and notebooks that were just created *)

Section NotebookErrors.

Context {fs Config : Type}.
Variable DirExists : fs -> abs_path -> bool * option error.
Variable WriteString : abs_path -> string -> fs -> fs * option error.
Variable OpenConfig : fs -> abs_path -> Config -> result Config.
Variable defaultConfig : string.

(** The search is decided by the deepest ancestor, other than the root,
    whose check does not plainly answer no. *)
Lemma locateRoot_decided (w : fs) (P r : abs_path) (b : bool)
  (oe : option error) :
  r <> [] -> r `prefix_of` P ->
  dir_check DirExists w r = (b, oe) -> (b, oe) <> (false, None) ->
  (forall a, a `prefix_of` P -> (length r < length a)%nat ->
             dir_check DirExists w a = (false, None)) ->
  locateRoot DirExists w P =
  match oe with
  | Some e => Err e
  | None => Ok r
  end.
Proof.
  intros Hne Hp Hr Hyes Hbelow.
  assert (Hsame : forall r' b' oe',
             r' <> [] -> r' `prefix_of` P ->
             dir_check DirExists w r' = (b', oe') ->
             (b', oe') <> (false, None) ->
             (forall a, a `prefix_of` P -> (length r' < length a)%nat ->
                        dir_check DirExists w a = (false, None)) ->
             r' = r).
  { intros r' b' oe' Hne' Hp' Hr' Hyes' Hbelow'.
    apply (prefix_same_length r' r P Hp' Hp).
    destruct (Nat.lt_trichotomy (length r') (length r)) as [Hlt | [E | Hgt]];
      [| exact E |].
    - rewrite (Hbelow' r Hp Hlt) in Hr. congruence.
    - rewrite (Hbelow r' Hp' Hgt) in Hr'. congruence. }
  pose proof (locateRoot_spec DirExists w P) as Hpost.
  destruct (locateRoot DirExists w P) as [r' | e']; simpl in Hpost.
  - destruct Hpost as (Hne' & Hp' & Hc' & Hb').
    assert (r' = r) as -> by (eapply Hsame; eauto; discriminate).
    rewrite Hc' in Hr. injection Hr as <- <-. reflexivity.
  - destruct Hpost as [(-> & Hall) | (r' & b' & Hne' & Hp' & Hc' & Hb')].
    + rewrite (Hall r Hne Hp) in Hr. congruence.
    + assert (r' = r) as -> by (eapply Hsame; eauto; discriminate).
      rewrite Hc' in Hr. injection Hr as <- <-. reflexivity.
Qed.

(** X9. When the check of an ancestor [r] of [P] fails with an error, the
    checks below [r] having found no [.zk], [Open] reports that error
    ("open failed"), although a directory above [r] may hold a notebook;
    [Create], for which every failure of the search means that there is
    no notebook, goes on and writes the files of the new notebook. *)
Theorem failed_check_stops_Open_not_Create (w : fs) (P r : abs_path)
  (b : bool) (e : error) (parentConfig : Config) :
  r <> [] -> r `prefix_of` P ->
  dir_check DirExists w r = (b, Some e) ->
  (forall a, a `prefix_of` P -> (length r < length a)%nat ->
             dir_check DirExists w a = (false, None)) ->
  Open DirExists OpenConfig w P parentConfig = Err (Wrapped "open failed" e) /\
  (forall w1 w2,
      WriteString (Join P [".zk"; "config.toml"]) defaultConfig w = (w1, None) ->
      WriteString (Join P [".zk"; "templates"; "default.md"])
        defaultTemplate w1 = (w2, None) ->
      Create DirExists WriteString defaultConfig w P = (w2, None)).
Proof.
  intros Hne Hp Hr Hbelow.
  pose proof (locateRoot_decided w P r b (Some e) Hne Hp Hr
                ltac:(discriminate) Hbelow) as HL.
  simpl in HL. split.
  - unfold Open. rewrite HL. reflexivity.
  - intros w1 w2 H1 H2. unfold Create. rewrite HL, H1, H2. reflexivity.
Qed.

Lemma Dir_Join_file (p : abs_path) (dir file : string) :
  Dir (Join p [dir; file]) = Join p [dir].
Proof.
  unfold Dir, Join.
  change [dir; file] with ([dir] ++ [file]).
  rewrite app_assoc, removelast_last. reflexivity.
Qed.

(** X10. Writing a file creates its parent directory, and no write removes a
    directory: under these two assumptions on [paths.WriteString], a
    notebook created at a path other than the filesystem root is found
    again at that very path, [Open] then depending on its configuration
    only, and a second [Create] at the path is refused and writes
    nothing. *)
Theorem Create_then_Open (w w' : fs) (path : abs_path) :
  (forall p content w0 w1,
      WriteString p content w0 = (w1, None) ->
      DirExists w1 (Dir p) = (true, None)) ->
  (forall p content w0 w1 q,
      WriteString p content w0 = (w1, None) ->
      DirExists w0 q = (true, None) -> DirExists w1 q = (true, None)) ->
  path <> [] ->
  Create DirExists WriteString defaultConfig w path = (w', None) ->
  locateRoot DirExists w' path = Ok path /\
  (forall parentConfig,
      Open DirExists OpenConfig w' path parentConfig =
      match OpenConfig w' (Join path [".zk"; "config.toml"]) parentConfig with
      | Ok config => Ok (mkZk path config path)
      | Err err => Err (Wrapped "open failed" err)
      end) /\
  Create DirExists WriteString defaultConfig w' path =
    (w', Some (Wrapped "init failed"
                 (Errorf "a notebook already exists in %v" path))).
Proof.
  intros Hcreates Hkeeps Hne HC.
  assert (Hzk : dir_check DirExists w' path = (true, None)).
  { unfold Create in HC.
    destruct (locateRoot DirExists w path); [discriminate|].
    destruct (WriteString (Join path [".zk"; "config.toml"]) defaultConfig w)
      as [w1 [e1|]] eqn:E1; [discriminate|].
    destruct (WriteString (Join path [".zk"; "templates"; "default.md"])
                defaultTemplate w1) as [w2 [e2|]] eqn:E2; [discriminate|].
    injection HC as <-. unfold dir_check.
    apply (Hkeeps _ _ _ _ _ E2).
    rewrite <- (Dir_Join_file path ".zk" "config.toml").
    apply (Hcreates _ _ _ _ E1). }
  assert (HL : locateRoot DirExists w' path = Ok path).
  { apply (locateRoot_decided w' path path true None Hne);
      [reflexivity | exact Hzk | discriminate |].
    intros a Ha Hlen. apply prefix_length in Ha. lia. }
  split; [exact HL|]. split.
  - intros parentConfig. unfold Open. rewrite HL. reflexivity.
  - unfold Create. rewrite HL. reflexivity.
Qed.

End NotebookErrors.

(** A filesystem in which the directory ["/home/nb/private/.zk"] cannot
    be inspected. *)
Definition guarded_DirExists (w : simple_fs) (p : abs_path)
  : bool * option error :=
  if bool_decide (p = ["home"; "nb"; "private"; ".zk"])
  then (false, Some (OtherError "permission denied"))
  else simple_DirExists w p.

Lemma failed_check_stops_Open_not_Create_witness :
  dir_check guarded_DirExists home_notebook_fs ["home"; "nb"; "private"]
    = (false, Some (OtherError "permission denied")) /\
  has_notebook_dir guarded_DirExists home_notebook_fs ["home"; "nb"] /\
  Open guarded_DirExists simple_OpenConfig home_notebook_fs
    ["home"; "nb"; "private"] tt
    = Err (Wrapped "open failed" (OtherError "permission denied")) /\
  exists w2,
    Create guarded_DirExists simple_WriteString "defaultConfig"
      home_notebook_fs ["home"; "nb"; "private"] = (w2, None).
Proof.
  assert (Hr : dir_check guarded_DirExists home_notebook_fs
                 ["home"; "nb"; "private"]
               = (false, Some (OtherError "permission denied")))
    by reflexivity.
  split; [exact Hr|]. split; [reflexivity|].
  destruct (failed_check_stops_Open_not_Create guarded_DirExists
              simple_WriteString simple_OpenConfig "defaultConfig"
              home_notebook_fs ["home"; "nb"; "private"]
              ["home"; "nb"; "private"] false
              (OtherError "permission denied") tt)
    as [HO HC].
  - discriminate.
  - reflexivity.
  - exact Hr.
  - intros a Ha Hlen. apply prefix_length in Ha. lia.
  - split; [exact HO|]. eexists. eapply HC; reflexivity.
Defined.

Lemma Create_then_Open_witness :
  exists w',
    Create simple_DirExists simple_WriteString "defaultConfig"
      (mkSimpleFs [] []) ["notes"] = (w', None) /\
    locateRoot simple_DirExists w' ["notes"] = Ok ["notes"] /\
    Create simple_DirExists simple_WriteString "defaultConfig" w' ["notes"]
    = (w', Some (Wrapped "init failed"
                   (Errorf "a notebook already exists in %v" ["notes"]))).
Proof.
  eexists. split; [vm_compute; reflexivity|].
  match goal with
  | |- locateRoot _ ?w' _ = _ /\ _ =>
      destruct (Create_then_Open simple_DirExists simple_WriteString
                  simple_OpenConfig "defaultConfig"
                  (mkSimpleFs [] []) w' ["notes"]) as (HL & _ & HC)
  end.
  - intros p content w0 w1 [= <-]. unfold simple_DirExists. simpl.
    rewrite bool_decide_eq_true_2 by set_solver. reflexivity.
  - intros p content w0 w1 q [= <-]. unfold simple_DirExists. simpl.
    intros [= Hq]. apply bool_decide_eq_true in Hq.
    rewrite bool_decide_eq_true_2 by set_solver. reflexivity.
  - discriminate.
  - vm_compute. reflexivity.
  - split; [exact HL | exact HC].
Defined.

(** *** Paths relative to the notebook *)

(** A path given by the user: a clean absolute path, or the elements of a
    relative one, among which [".."], ["."] and empty elements may
    occur. *)
Inductive user_path : Type :=
| Absolute (p : abs_path)
| Relative (elems : list string).

(** The path as the user wrote it, for error messages. *)
Definition written (p : user_path) : list string :=
  match p with
  | Absolute p => p
  | Relative elems => elems
  end.

(** [filepath.Join(base, rel)], which cleans its result: [".."] goes up
    (and stays at the root), ["."] and empty elements vanish. *)
Definition clean_step (acc : abs_path) (c : string) : abs_path :=
  if decide (c = "..") then Dir acc
  else if decide (c = "." \/ c = "") then acc
  else acc ++ [c].

Definition clean_join (base : abs_path) (elems : list string) : abs_path :=
  foldl clean_step base elems.

Fixpoint common_prefix_length (a b : list string) : nat :=
  match a, b with
  | x :: a', y :: b' =>
      if decide (x = y) then S (common_prefix_length a' b') else O
  | _, _ => O
  end.

(** [filepath.Rel(base, targ)] on clean absolute paths, where it cannot
    fail: up from [base] to the deepest common ancestor, then down to
    [targ].  The result ["."] is the empty list. *)
Definition Rel (base targ : abs_path) : list string :=
  let n := common_prefix_length base targ in
  replicate (length base - n) ".." ++ drop n targ.

(** [strings.HasPrefix(path, "..")] on a relative path: its first
    element begins with two dots. *)
Definition HasPrefix_dotdot (rel : list string) : bool :=
  match rel with
  | c :: _ => String.prefix ".." c
  | [] => false
  end.

Section RelPath.

Context {Config : Type}.

(** [func (zk *Zk) DBPath() string] *)
Definition DBPath (zk : @Zk Config) : abs_path :=
  Join (Path zk) [".zk"; "notebook.db"].

(** [func (zk *Zk) absPath(originalPath string) (string, error)]; with an
    absolute working directory [filepath.Abs] has nothing to resolve and
    cannot fail. *)
Definition absPath (zk : @Zk Config) (originalPath : user_path)
  : abs_path * option error :=
  match originalPath with
  | Absolute path => (path, None)
  | Relative elems => (clean_join (workingDir zk) elems, None)
  end.

(** [func (zk *Zk) RelPath(originalPath string) (string, error)]; the
    relative path ["."] becomes the empty one. *)
Definition RelPath (zk : @Zk Config) (originalPath : user_path)
  : list string * option error :=
  let wrap := Wrapped "%v: not a valid notebook path" in
  match absPath zk originalPath with
  | (path, Some err) => (path, Some (wrap err))
  | (path, None) =>
      let path := Rel (Path zk) path in
      if HasPrefix_dotdot path
      then (path, Some (Errorf "%s: path is outside the notebook"
                          (written originalPath)))
      else (path, None)
  end.







End RelPath.

Example RelPath_examples :
  let zk := mkZk ["home"; "nb"] tt ["home"; "nb"; "daily"] in
  RelPath zk (Relative ["2021"; "01.md"]) = (["daily"; "2021"; "01.md"], None) /\
  RelPath zk (Relative [".."; "inbox.md"]) = (["inbox.md"], None) /\
  RelPath zk (Relative [".."; ".."; "other"; "x.md"])
    = ([".."; "other"; "x.md"],
       Some (Errorf "%s: path is outside the notebook"
               [".."; ".."; "other"; "x.md"])) /\
  RelPath zk (Absolute ["home"; "nb"; "..drafts"; "x.md"])
    = (["..drafts"; "x.md"],
       Some (Errorf "%s: path is outside the notebook"
               ["home"; "nb"; "..drafts"; "x.md"])).
Proof. vm_compute. repeat split. Qed.

(** *** The configuration of a directory *)

Section GroupConfig.

(** [GroupConfig], of which only the [Paths] are read here; the root
    configuration [zk.Config.RootGroupConfig()]; and [filepath.Match]. *)
Context {GroupConfig : Type}.
Variable Paths : GroupConfig -> list string.
Variable RootGroupConfig : GroupConfig.
Variable Match : string -> list string -> bool * option error.

(** [zk.Config.Groups], a Go map: its entries in the order in which this
    run of [range] visits them; an indexing finds the entry of a key. *)
Definition groups_map := list (string * GroupConfig).

Fixpoint lookup_group (name : string) (groups : groups_map)
  : option GroupConfig :=
  match groups with
  | [] => None
  | (n, g) :: rest =>
      if String.eqb name n then Some g else lookup_group name rest
  end.

(** The first loop of [findConfigForDirNamed], over the [Group] fields of
    the overrides: the group found, or the last group name met. *)
Fixpoint scan_overrides (groups : groups_map) (overrides : list opt.String)
  (overriddenGroup : string) : GroupConfig + string :=
  match overrides with
  | [] => inr overriddenGroup
  | o :: rest =>
      if negb (opt.IsNull o)
      then match lookup_group (opt.Unwrap o) groups with
           | Some group => inl group
           | None => scan_overrides groups rest (opt.Unwrap o)
           end
      else scan_overrides groups rest overriddenGroup
  end.

(** The inner loop over [group.Paths]: [None] when no pattern matched. *)
Fixpoint match_paths (group : GroupConfig) (paths : list string)
  (name : list string) : option (result GroupConfig) :=
  match paths with
  | [] => None
  | path :: rest =>
      match Match path name with
      | (_, Some err) =>
          Some (Err (Wrapped "failed to match group %s to %s" err))
      | (true, None) => Some (Ok group)
      | (false, None) => match_paths group rest name
      end
  end.

(** The outer loop over the groups, and the fallback on the root
    configuration. *)
Fixpoint match_groups (groups : groups_map) (name : list string)
  : result GroupConfig :=
  match groups with
  | [] => Ok RootGroupConfig
  | (_, group) :: rest =>
      match match_paths group (Paths group) name with
      | Some res => res
      | None => match_groups rest name
      end
  end.

(** [func (zk *Zk) findConfigForDirNamed(name, overrides)] *)
Definition findConfigForDirNamed (groups : groups_map) (name : list string)
  (overrides : list opt.String) : result GroupConfig :=
  match scan_overrides groups overrides "" with
  | inl group => Ok group
  | inr overriddenGroup =>
      if negb (String.eqb overriddenGroup "")
      then Err (Errorf "%s: group not find in the config file"
                  [overriddenGroup])
      else match_groups groups name
  end.

(** An override that names no group of the configuration: it is null, or
    its group is missing. *)
Definition names_no_group (groups : groups_map) (o : opt.String) : Prop :=
  opt.IsNull o = true \/ lookup_group (opt.Unwrap o) groups = None.

Lemma scan_overrides_app (groups : groups_map) (pre post : list opt.String)
  (og : string) :
  Forall (names_no_group groups) pre ->
  exists og', scan_overrides groups (pre ++ post) og
              = scan_overrides groups post og' /\
              (Forall (fun o => opt.IsNull o = true) pre -> og' = og).
Proof.
  intros H. revert og. induction H as [|o pre Ho Hpre IH]; intros og; simpl.
  - exists og. auto.
  - destruct Ho as [Hn | Hm].
    + rewrite Hn. simpl. destruct (IH og) as (og' & E & Hog).
      exists og'. split; [exact E|]. intros Hall. apply Hog.
      inversion Hall; assumption.
    + destruct (opt.IsNull o) eqn:Hn; simpl.
      * destruct (IH og) as (og' & E & Hog).
        exists og'. split; [exact E|]. intros Hall. apply Hog.
        inversion Hall; assumption.
      * rewrite Hm. destruct (IH (opt.Unwrap o)) as (og' & E & Hog).
        exists og'. split; [exact E|]. intros Hall.
        inversion Hall; congruence.
Qed.

Lemma scan_overrides_null (groups : groups_map) (post : list opt.String)
  (og : string) :
  Forall (fun o => opt.IsNull o = true) post ->
  scan_overrides groups post og = inr og.
Proof.
  intros H. induction H as [|o post Ho Hpost IH]; simpl; [reflexivity|].
  rewrite Ho. exact IH.
Qed.

(** X12. The first override that names a group of the configuration decides:
    the directory gets that group, whatever its name and whatever the
    path patterns say.  When overrides name groups and none exists, the
    call fails, naming the last group asked for.  Without any group
    override, and with a configuration that has no group, the directory
    gets the root configuration. *)
Theorem group_override_decides (groups : groups_map) (name : list string)
  (pre post : list opt.String) (o : opt.String) :
  Forall (names_no_group groups) pre ->
  opt.IsNull o = false ->
  (forall group,
      lookup_group (opt.Unwrap o) groups = Some group ->
      findConfigForDirNamed groups name (pre ++ o :: post) = Ok group) /\
  (lookup_group (opt.Unwrap o) groups = None ->
   Forall (fun o' => opt.IsNull o' = true) post ->
   opt.Unwrap o <> "" ->
   findConfigForDirNamed groups name (pre ++ o :: post) =
   Err (Errorf "%s: group not find in the config file" [opt.Unwrap o])) /\
  (Forall (fun o' => opt.IsNull o' = true) pre ->
   findConfigForDirNamed groups name pre = match_groups groups name /\
   findConfigForDirNamed [] name pre = Ok RootGroupConfig).
Proof.
  intros Hpre Ho. split; [|split].
  - intros group Hg. unfold findConfigForDirNamed.
    destruct (scan_overrides_app groups pre (o :: post) "" Hpre)
      as (og' & -> & _).
    simpl. rewrite Ho, Hg. reflexivity.
  - intros Hmiss Hpost Hne. unfold findConfigForDirNamed.
    destruct (scan_overrides_app groups pre (o :: post) "" Hpre)
      as (og' & -> & _).
    simpl. rewrite Ho, Hmiss. simpl.
    rewrite (scan_overrides_null groups post _ Hpost).
    rewrite (proj2 (String.eqb_neq (opt.Unwrap o) "")) by exact Hne.
    reflexivity.
  - intros Hnull. unfold findConfigForDirNamed.
    rewrite !(scan_overrides_null _ pre "" Hnull). split; reflexivity.
Qed.

End GroupConfig.

Lemma group_override_decides_witness :
  let groups := [("log", ["journal"]); ("ref", ["ref"])] in
  let never := fun (_ : string) (_ : list string) =>
                 (false, @None error) in
  findConfigForDirNamed id [] never groups ["journal"]
    [opt.NullString; opt.NewString "missing"; opt.NewString "ref";
     opt.NewString "log"] = Ok ["ref"] /\
  findConfigForDirNamed id [] never groups ["journal"]
    [opt.NewString "missing"; opt.NullString]
  = Err (Errorf "%s: group not find in the config file" ["missing"]).
Proof.
  cbv zeta.
  assert (Hpre : Forall (@names_no_group (list string)
                           [("log", ["journal"]); ("ref", ["ref"])])
                        [opt.NullString; opt.NewString "missing"]).
  { apply Forall_cons_2; [left; reflexivity|].
    apply Forall_cons_2; [right; reflexivity|]. apply Forall_nil_2. }
  split.
  - apply (proj1 (group_override_decides id []
                    (fun _ _ => (false, None))
                    [("log", ["journal"]); ("ref", ["ref"])] ["journal"]
                    [opt.NullString; opt.NewString "missing"]
                    [opt.NewString "log"] (opt.NewString "ref")
                    Hpre eq_refl)).
    reflexivity.
  - apply (proj1 (proj2 (group_override_decides id []
                           (fun _ _ => (false, None))
                           [("log", ["journal"]); ("ref", ["ref"])]
                           ["journal"] [] [opt.NullString]
                           (opt.NewString "missing")
                           (Forall_nil_2 _) eq_refl)));
      [reflexivity | repeat constructor | discriminate].
Defined.

(** *** Directories of a notebook *)

Section DirAt.

Context {fs Config GroupConfig ConfigOverrides : Type}.
(** [zk.Config.Groups], [zk.Config.RootGroupConfig()], [GroupConfig.Paths],
    [filepath.Match], [ConfigOverrides.Group], [GroupConfig.Clone],
    [GroupConfig.Override] and [paths.Exists]. *)
Variable Groups : Config -> list (string * GroupConfig).
Variable RootGroupConfig : Config -> GroupConfig.
Variable Paths : GroupConfig -> list string.
Variable Match : string -> list string -> bool * option error.
Variable Group : ConfigOverrides -> opt.String.
Variable Clone : GroupConfig -> GroupConfig.
Variable Override : GroupConfig -> ConfigOverrides -> GroupConfig.
Variable Exists : fs -> abs_path -> bool * option error.






End DirAt.

End zk.

(** ** The SQLite store ([package sqlite]) *)

Module sqlite.

(** *** The SQL fragment that [Migrate] uses *)

(** An SQL value. *)
Inductive value : Type :=
| VNull
| VInt (n : Z)
| VText (s : string).

#[global] Instance value_eq_dec : EqDecision value.
Proof. solve_decision. Defined.

(** [ON DELETE] actions of a foreign key. *)
Inductive fk_action : Type := Cascade | SetNull | NoAction.

(** [REFERENCES fk_table(fk_column) ON DELETE fk_on_delete] *)
Record foreign_key := mkForeignKey {
  fk_table : string;
  fk_column : string;
  fk_on_delete : fk_action
}.

(** [DEFAULT(...)] clauses. *)
Inductive default_expr : Type :=
| DefaultValue (v : value)
| DefaultCurrentTimestamp.

(** A column definition. [col_primary_key] stands for
    [INTEGER PRIMARY KEY AUTOINCREMENT], which makes the column an alias of
    the rowid. *)
Record column := mkColumn {
  col_name : string;
  col_type : string;
  col_primary_key : bool;
  col_not_null : bool;
  col_default : option default_expr;
  col_references : option foreign_key
}.

(** A table definition: its columns and its [UNIQUE(...)] constraints. *)
Record table := mkTable {
  tbl_columns : list column;
  tbl_unique : list (list string)
}.

(** [CREATE INDEX ... ON idx_table (idx_columns)] *)
Record index := mkIndex {
  idx_table : string;
  idx_columns : list string
}.

(** [CREATE VIRTUAL TABLE ... USING fts5(columns, content = ...,
    content_rowid = ..., tokenize = ...)] *)
Record fts5_table := mkFts5 {
  fts_columns : list string;
  fts_content : string;
  fts_content_rowid : string;
  fts_tokenize : string
}.

Inductive trigger_event : Type := AfterInsert | AfterDelete | AfterUpdate.

#[global] Instance trigger_event_eq_dec : EqDecision trigger_event.
Proof. solve_decision. Defined.

(** [new.c] and [old.c] in a trigger body. *)
Inductive row_ref : Type := New | Old.

(** The two statements found in the trigger bodies:
    [INSERT INTO fts(rowid, cols...) VALUES (refs...)], which indexes a
    document, and the FTS5 delete command
    [INSERT INTO fts(fts, rowid, cols...) VALUES ('delete', refs...)], which
    removes from the index the document with these values.  The first
    reference gives the rowid, the others the indexed columns. *)
Inductive trigger_stmt : Type :=
| FtsInsert (fts : string) (rowid : row_ref * string)
    (values : list (row_ref * string))
| FtsDelete (fts : string) (rowid : row_ref * string)
    (values : list (row_ref * string)).

(** [CREATE TRIGGER ... trg_event ON trg_table BEGIN trg_body END] *)
Record trigger := mkTrigger {
  trg_event : trigger_event;
  trg_table : string;
  trg_body : list trigger_stmt
}.

(** The statements executed by [Migrate]. *)
Inductive stmt : Type :=
| CreateTable (if_not_exists : bool) (name : string) (t : table)
| CreateIndex (if_not_exists : bool) (name : string) (i : index)
| CreateVirtualTable (if_not_exists : bool) (name : string) (v : fts5_table)
| CreateTrigger (if_not_exists : bool) (name : string) (t : trigger)
| CreateView (if_not_exists : bool) (name : string) (select : string)
| AlterTableAddColumn (table_name : string) (c : column)
| PragmaUserVersion (v : Z).

(** Shorthands for the column definitions of the source. *)
Definition id_column : column :=
  mkColumn "id" "INTEGER" true true None None.
Definition not_null (name type : string) : column :=
  mkColumn name type false true None None.
Definition not_null_default (name type : string) (v : value) : column :=
  mkColumn name type false true (Some (DefaultValue v)) None.
Definition not_null_timestamp (name : string) : column :=
  mkColumn name "DATETIME" false true (Some DefaultCurrentTimestamp) None.
Definition references (name : string) (required : bool) (parent : string)
  (action : fk_action) : column :=
  mkColumn name "INTEGER" false required None
    (Some (mkForeignKey parent "id" action)).

(** *** The three upgrade steps of [Migrate], statement by statement *)

(** The block guarded by [version <= 0]. *)
Definition upgrade_to_1 : list stmt := [
  CreateTable true "notes" (mkTable [
      id_column;
      not_null "path" "TEXT";
      not_null "sortable_path" "TEXT";
      not_null_default "title" "TEXT" (VText "");
      not_null_default "lead" "TEXT" (VText "");
      not_null_default "body" "TEXT" (VText "");
      not_null_default "raw_content" "TEXT" (VText "");
      not_null_default "word_count" "INTEGER" (VInt 0);
      not_null "checksum" "TEXT";
      not_null_timestamp "created";
      not_null_timestamp "modified"
    ] [["path"]]);
  CreateIndex true "index_notes_checksum" (mkIndex "notes" ["checksum"]);
  CreateIndex true "index_notes_path" (mkIndex "notes" ["path"]);
  CreateTable true "links" (mkTable [
      id_column;
      references "source_id" true "notes" Cascade;
      references "target_id" false "notes" SetNull;
      not_null_default "title" "TEXT" (VText "");
      not_null "href" "TEXT";
      not_null_default "external" "INT" (VInt 0);
      not_null_default "rels" "TEXT" (VText "");
      not_null_default "snippet" "TEXT" (VText "")
    ] []);
  CreateIndex true "index_links_source_id_target_id"
    (mkIndex "links" ["source_id"; "target_id"]);
  CreateVirtualTable true "notes_fts"
    (mkFts5 ["path"; "title"; "body"] "notes" "id"
       "porter unicode61 remove_diacritics 1 tokenchars '''&/'");
  CreateTrigger true "trigger_notes_ai" (mkTrigger AfterInsert "notes" [
      FtsInsert "notes_fts" (New, "id")
        [(New, "path"); (New, "title"); (New, "body")]
    ]);
  CreateTrigger true "trigger_notes_ad" (mkTrigger AfterDelete "notes" [
      FtsDelete "notes_fts" (Old, "id")
        [(Old, "path"); (Old, "title"); (Old, "body")]
    ]);
  CreateTrigger true "trigger_notes_au" (mkTrigger AfterUpdate "notes" [
      FtsDelete "notes_fts" (Old, "id")
        [(Old, "path"); (Old, "title"); (Old, "body")];
      FtsInsert "notes_fts" (New, "id")
        [(New, "path"); (New, "title"); (New, "body")]
    ]);
  PragmaUserVersion 1
].

(** The block guarded by [version <= 1].  The [kind] column is declared
    [TEXT NO NULL] in the source, which SQLite reads as a type name: the
    column carries no [NOT NULL] constraint.  The view is created without
    [IF NOT EXISTS]; its [SELECT] is kept as text, [note.CollectionKindTag]
    being the kind ["tag"]. *)
Definition upgrade_to_2 : list stmt := [
  CreateTable true "collections" (mkTable [
      id_column;
      mkColumn "kind" "TEXT NO NULL" false false None None;
      not_null "name" "TEXT"
    ] [["kind"; "name"]]);
  CreateIndex true "index_collections" (mkIndex "collections" ["kind"; "name"]);
  CreateTable true "notes_collections" (mkTable [
      id_column;
      references "note_id" true "notes" Cascade;
      references "collection_id" true "collections" Cascade
    ] []);
  CreateIndex true "index_notes_collections"
    (mkIndex "notes_collections" ["note_id"; "collection_id"]);
  CreateView false "notes_with_metadata"
    "SELECT n.*, GROUP_CONCAT(c.name, char(1)) AS tags FROM notes n LEFT JOIN notes_collections nc ON nc.note_id = n.id LEFT JOIN collections c ON nc.collection_id = c.id AND c.kind = 'tag' GROUP BY n.id";
  PragmaUserVersion 2
].

(** The block guarded by [version <= 2]. *)
Definition upgrade_to_3 : list stmt := [
  AlterTableAddColumn "notes"
    (not_null_default "metadata" "TEXT" (VText "{}"));
  AlterTableAddColumn "links"
    (not_null_default "snippet_start" "INTEGER" (VInt 0));
  AlterTableAddColumn "links"
    (not_null_default "snippet_end" "INTEGER" (VInt 0));
  PragmaUserVersion 3
].

(** *** The database *)

(** What [sqlite_master] records about a named object. *)
Inductive schema_object : Type :=
| Table (t : table)
| Index (i : index)
| VirtualTable (v : fts5_table)
| Trigger (t : trigger)
| View (select : string).

(** The schema, in creation order. *)
Definition catalog := list (string * schema_object).

Fixpoint lookup_object (name : string) (cat : catalog)
  : option schema_object :=
  match cat with
  | [] => None
  | (n, o) :: rest =>
      if String.eqb name n then Some o else lookup_object name rest
  end.

Fixpoint replace_object (name : string) (o : schema_object) (cat : catalog)
  : catalog :=
  match cat with
  | [] => []
  | (n, o') :: rest =>
      if String.eqb name n then (n, o) :: rest
      else (n, o') :: replace_object name o rest
  end.

Definition find_table (name : string) (cat : catalog) : option table :=
  match lookup_object name cat with
  | Some (Table t) => Some t
  | _ => None
  end.

(** A row: its values by column name.  The rowid, to which the
    [INTEGER PRIMARY KEY] column [id] is an alias, is the key under which
    the row is stored. *)
Definition row := gmap string value.

(** A document of a full-text index: its rowid and indexed values. *)
Record fts_doc := mkFtsDoc {
  doc_rowid : value;
  doc_values : list value
}.

#[global] Instance fts_doc_eq_dec : EqDecision fts_doc.
Proof. solve_decision. Defined.

(** A database as seen through one connection: the schema, the integer
    [PRAGMA user_version], the connection's [PRAGMA foreign_keys], the rows
    of every table by rowid, the [AUTOINCREMENT] counters and the
    documents held by each full-text index. *)
Record db := mkDb {
  schema : catalog;
  user_version : Z;
  foreign_keys : bool;
  data : gmap string (gmap Z row);
  sequence : gmap string Z;
  fts_index : gmap string (list fts_doc)
}.

Definition set_schema (c : catalog) (d : db) : db :=
  mkDb c (user_version d) (foreign_keys d) (data d) (sequence d) (fts_index d).
Definition set_user_version (v : Z) (d : db) : db :=
  mkDb (schema d) v (foreign_keys d) (data d) (sequence d) (fts_index d).
Definition set_foreign_keys (b : bool) (d : db) : db :=
  mkDb (schema d) (user_version d) b (data d) (sequence d) (fts_index d).
Definition set_data (t : gmap string (gmap Z row)) (d : db) : db :=
  mkDb (schema d) (user_version d) (foreign_keys d) t (sequence d) (fts_index d).
Definition set_sequence (q : gmap string Z) (d : db) : db :=
  mkDb (schema d) (user_version d) (foreign_keys d) (data d) q (fts_index d).
Definition set_fts_index (f : gmap string (list fts_doc)) (d : db) : db :=
  mkDb (schema d) (user_version d) (foreign_keys d) (data d) (sequence d) f.

(** The rows of a table. *)
Definition rows_of (tbl : string) (d : db) : gmap Z row :=
  default ∅ (data d !! tbl).

(** An empty database file, as [sql.Open] creates it. *)
Definition empty_db : db := mkDb [] 0 false ∅ ∅ ∅.

(** *** Executing the schema statements *)

Definition is_table_like (o : schema_object) : bool :=
  match o with Table _ | VirtualTable _ | View _ => true | _ => false end.
Definition is_index (o : schema_object) : bool :=
  match o with Index _ => true | _ => false end.
Definition is_trigger (o : schema_object) : bool :=
  match o with Trigger _ => true | _ => false end.

(** [CREATE ... name]: a new object is appended to the schema; when the
    name is taken, [IF NOT EXISTS] turns the statement into a no-op if the
    existing object is of the kind being created, and the statement fails
    otherwise. *)
Definition create_object (if_not_exists : bool) (name : string)
  (same_kind : schema_object -> bool) (o : schema_object) (d : db)
  : result db :=
  match lookup_object name (schema d) with
  | None => Ok (set_schema (schema d ++ [(name, o)]) d)
  | Some existing =>
      if if_not_exists && same_kind existing then Ok d
      else Err (SqlError "already exists" name)
  end.

(** The value that [ALTER TABLE ADD COLUMN] gives to the existing rows, if
    the column may be added: no primary key, a constant default, and no
    [NOT NULL] column whose default is [NULL]. *)
Definition added_column_value (c : column) : option value :=
  if col_primary_key c then None
  else match col_default c with
       | Some (DefaultValue VNull) | None =>
           if col_not_null c then None else Some VNull
       | Some (DefaultValue v) => Some v
       | Some DefaultCurrentTimestamp => None
       end.

Definition add_column (name : string) (t : table) (c : column) (v : value)
  (d : db) : db :=
  set_data (alter (fmap (insert (col_name c) v)) name (data d))
    (set_schema
       (replace_object name
          (Table (mkTable (tbl_columns t ++ [c]) (tbl_unique t))) (schema d))
       d).

Section Transactions.

(** Failures of the driver (I/O errors, a locked or full database file):
    whether executing a statement, or reading the schema version, fails in
    a given database for a reason outside the SQL semantics below. *)
Variable driver_error : stmt -> db -> option error.
Variable query_error : db -> option error.
Variable open_error : db -> option error.

(** [func open(uri string)]: after [sql.Open], the connection runs
    [PRAGMA foreign_keys = ON]; either may fail.  [stored] is the database
    found at [uri]. *)
Definition open (stored : db) : result db :=
  match open_error stored with
  | Some err => Err (Wrapped "failed to open the database" err)
  | None => Ok (set_foreign_keys true stored)
  end.

(** The effect of one schema statement, or its error. *)
Definition exec_stmt (s : stmt) (d : db) : result db :=
  match driver_error s d with
  | Some err => Err err
  | None =>
      match s with
      | CreateTable ine name t =>
          create_object ine name is_table_like (Table t) d
      | CreateVirtualTable ine name v =>
          create_object ine name is_table_like (VirtualTable v) d
      | CreateView ine name select =>
          create_object ine name is_table_like (View select) d
      | CreateIndex ine name i =>
          match find_table (idx_table i) (schema d) with
          | None => Err (SqlError "no such table" (idx_table i))
          | Some _ => create_object ine name is_index (Index i) d
          end
      | CreateTrigger ine name t =>
          match find_table (trg_table t) (schema d) with
          | None => Err (SqlError "no such table" (trg_table t))
          | Some _ => create_object ine name is_trigger (Trigger t) d
          end
      | AlterTableAddColumn name c =>
          match find_table name (schema d) with
          | None => Err (SqlError "no such table" name)
          | Some t =>
              if bool_decide (col_name c ∈ map col_name (tbl_columns t))
              then Err (SqlError "duplicate column name" (col_name c))
              else match added_column_value c with
                   | None => Err (SqlError "cannot add column" (col_name c))
                   | Some v => Ok (add_column name t c v d)
                   end
          end
      | PragmaUserVersion v => Ok (set_user_version v d)
      end
  end.

(** The statements of a list one after the other, up to the first that
    fails: the database reached and that error. *)
Fixpoint exec_stmts (stmts : list stmt) (d : db) : db * option error :=
  match stmts with
  | [] => (d, None)
  | s :: rest =>
      match exec_stmt s d with
      | Ok d' => exec_stmts rest d'
      | Err err => (d, Some err)
      end
  end.

(** *** Transactions *)

(** The state a transaction callback acts on: the database as the
    transaction sees it, and the variables of the enclosing function that
    the Go closure captures.  A rollback undoes the former only. *)
Record tx_state (E : Type) := mkTx { tx_db : db; tx_env : E }.
#[global] Arguments mkTx {E} tx_db tx_env.
#[global] Arguments tx_db {E} _.
#[global] Arguments tx_env {E} _.

(** A computation inside a transaction: it yields a value or an error,
    and the state reached either way. *)
Definition Tx (E A : Type) : Type := tx_state E -> tx_state E * result A.

Definition tx_ret {E A} (a : A) : Tx E A := fun s => (s, Ok a).

Definition tx_bind {E A B} (m : Tx E A) (k : A -> Tx E B) : Tx E B :=
  fun s =>
    match m s with
    | (s', Ok a) => k a s'
    | (s', Err err) => (s', Err err)
    end.

#[global] Instance Tx_ret {E} : MRet (Tx E) := fun A => @tx_ret E A.
#[global] Instance Tx_bind {E} : MBind (Tx E) :=
  fun A B k m => @tx_bind E A B m k.

(** Assignment to the captured variables. *)
Definition tx_assign {E} (e : E) : Tx E unit :=
  fun s => (mkTx (tx_db s) e, Ok tt).

(** [tx.QueryRow("PRAGMA user_version").Scan(&version)] *)
Definition QueryRow_user_version {E} : Tx E Z :=
  fun s =>
    match query_error (tx_db s) with
    | Some err => (s, Err err)
    | None => (s, Ok (user_version (tx_db s)))
    end.

(** Modelled from the spec: [Transaction.ExecStmts], whose code is not in
    the sources at hand.  The statements are applied in order inside the
    transaction; the first error stops the run and is returned. *)
Definition ExecStmts {E} (stmts : list stmt) : Tx E unit :=
  fun s =>
    match exec_stmts stmts (tx_db s) with
    | (d', None) => (mkTx d' (tx_env s), Ok tt)
    | (d', Some err) => (mkTx d' (tx_env s), Err err)
    end.

(** Modelled from the spec: [DB.WithTransaction], whose code is not in the
    sources at hand.  The callback runs inside one transaction, which
    completes and commits when the callback returns nil, and aborts and
    rolls back in full when it returns an error.  The result is the
    database afterwards, the captured variables and the error. *)
Definition WithTransaction {E} (d : db) (env : E) (callback : Tx E unit)
  : db * E * option error :=
  match callback (mkTx d env) with
  | (s', Ok _) => (tx_db s', tx_env s', None)
  | (s', Err err) => (d, tx_env s', Some err)
  end.

(** [errors.Wrap(err, msg)]: nil stays nil. *)
Definition Wrap (err : option error) (msg : string) : option error :=
  match err with
  | None => None
  | Some e => Some (Wrapped msg e)
  end.

(** The callback of [Migrate]; the captured variable is the named result
    [needsReindexing]. *)
Definition Migrate_callback : Tx bool unit :=
  version ← QueryRow_user_version;
  (if version <=? 0 then ExecStmts upgrade_to_1 else mret tt);;
  (if version <=? 1 then ExecStmts upgrade_to_2 else mret tt);;
  (if version <=? 2
   then ExecStmts upgrade_to_3;; tx_assign true
   else mret tt);;
  mret tt.

(** [func (db *DB) Migrate() (needsReindexing bool, err error)]: the
    database afterwards, then the two results. *)
Definition Migrate (d : db) : db * bool * option error :=
  let '(d', needsReindexing, err) := WithTransaction d false Migrate_callback in
  (d', needsReindexing, Wrap err "database migration failed").

(** *** The upgrade steps that a run of [Migrate] applies *)

(** The upgrade steps, each with the schema version it installs. *)
Definition upgrade_steps : list (Z * list stmt) :=
  [(1, upgrade_to_1); (2, upgrade_to_2); (3, upgrade_to_3)].

(** The current schema version. *)
Definition current_version : Z := 3.

(** The steps that install a version above [version], in the order of
    [upgrade_steps], and their statements. *)
Definition pending_steps (version : Z) : list (Z * list stmt) :=
  filter (fun step => version < step.1) upgrade_steps.

Definition pending_stmts (version : Z) : list stmt :=
  concat (map snd (pending_steps version)).

Lemma pending_steps_cases (version : Z) :
  (version <= 0 /\ pending_steps version = upgrade_steps) \/
  (version = 1 /\
   pending_steps version = [(2, upgrade_to_2); (3, upgrade_to_3)]) \/
  (version = 2 /\ pending_steps version = [(3, upgrade_to_3)]) \/
  (3 <= version /\ pending_steps version = []).
Proof.
  unfold pending_steps, upgrade_steps.
  destruct (decide (version <= 0)) as [H0 | H0];
    [left | right; destruct (decide (version = 1)) as [H1 | H1];
       [left | right; destruct (decide (version = 2)) as [H2 | H2];
          [left | right]]];
    (split; [lia |]);
    repeat first
      [ rewrite filter_cons_True by (simpl; lia)
      | rewrite filter_cons_False by (simpl; lia) ];
    reflexivity.
Qed.

Lemma exec_stmts_app (l1 l2 : list stmt) (d : db) :
  exec_stmts (l1 ++ l2) d =
  match exec_stmts l1 d with
  | (d1, None) => exec_stmts l2 d1
  | (d1, Some err) => (d1, Some err)
  end.
Proof.
  revert d. induction l1 as [|s l1 IH]; intros d; simpl; [reflexivity|].
  destruct (exec_stmt s d) as [d1 | err]; [apply IH | reflexivity].
Qed.

(** A run of [exec_stmts] ends in an error exactly when one statement
    fails after those before it succeeded. *)
Lemma exec_stmts_error_iff (l : list stmt) (d dp : db) (err : error) :
  exec_stmts l d = (dp, Some err) <->
  exists l1 s l2,
    l = l1 ++ s :: l2 /\ exec_stmts l1 d = (dp, None) /\
    exec_stmt s dp = Err err.
Proof.
  revert d. induction l as [|s l IH]; intros d; simpl.
  - split; [discriminate|]. intros (l1 & s & l2 & E & _).
    destruct l1; discriminate.
  - destruct (exec_stmt s d) as [d1 | e] eqn:Es.
    + rewrite IH. split.
      * intros (l1 & s' & l2 & -> & H1 & H2).
        exists (s :: l1), s', l2. simpl. rewrite Es. auto.
      * intros (l1 & s' & l2 & E & H1 & H2).
        destruct l1 as [|s0 l1]; simpl in *.
        -- injection E as <- <-. injection H1 as <-. congruence.
        -- injection E as <- ->. rewrite Es in H1. eauto 6.
    + split.
      * intros [= <- <-]. exists [], s, l. auto.
      * intros (l1 & s' & l2 & E & H1 & H2).
        destruct l1 as [|s0 l1]; simpl in *.
        -- injection E as <- <-. injection H1 as <-. congruence.
        -- injection E as <- ->. rewrite Es in H1. discriminate.
Qed.

(** [Migrate] in closed form: it reads the stored version, runs the
    statements of the pending steps, commits and raises the flag when the
    step to version 3 was among them, or rolls back on the first error. *)
Lemma Migrate_unfold (d : db) :
  Migrate d =
  match query_error d with
  | Some err => (d, false, Some (Wrapped "database migration failed" err))
  | None =>
      match exec_stmts (pending_stmts (user_version d)) d with
      | (d', None) => (d', bool_decide (user_version d <= 2), None)
      | (_, Some err) =>
          (d, false, Some (Wrapped "database migration failed" err))
      end
  end.
Proof.
  cbv beta iota delta
    [Migrate WithTransaction Migrate_callback mbind mret Tx_bind Tx_ret
     tx_bind tx_ret ExecStmts QueryRow_user_version tx_assign tx_db tx_env].
  destruct (query_error d) as [err|]; [reflexivity|].
  unfold pending_stmts.
  destruct (pending_steps_cases (user_version d))
    as [[Hv ->] | [[Hv ->] | [[Hv ->] | [Hv ->]]]];
    unfold upgrade_steps, Wrap; cbn [map snd concat];
    rewrite ?app_nil_r, ?exec_stmts_app.
  - replace (user_version d <=? 0) with true by lia.
    replace (user_version d <=? 1) with true by lia.
    replace (user_version d <=? 2) with true by lia.
    rewrite bool_decide_eq_true_2 by lia.
    destruct (exec_stmts upgrade_to_1 d) as [d1 [e1|]]; [reflexivity|].
    rewrite exec_stmts_app.
    destruct (exec_stmts upgrade_to_2 d1) as [d2 [e2|]]; [reflexivity|].
    destruct (exec_stmts upgrade_to_3 d2) as [d3 [e3|]]; reflexivity.
  - replace (user_version d <=? 0) with false by lia.
    replace (user_version d <=? 1) with true by lia.
    replace (user_version d <=? 2) with true by lia.
    rewrite bool_decide_eq_true_2 by lia.
    destruct (exec_stmts upgrade_to_2 d) as [d2 [e2|]]; [reflexivity|].
    destruct (exec_stmts upgrade_to_3 d2) as [d3 [e3|]]; reflexivity.
  - replace (user_version d <=? 0) with false by lia.
    replace (user_version d <=? 1) with false by lia.
    replace (user_version d <=? 2) with true by lia.
    rewrite bool_decide_eq_true_2 by lia.
    destruct (exec_stmts upgrade_to_3 d) as [d3 [e3|]]; reflexivity.
  - replace (user_version d <=? 0) with false by lia.
    replace (user_version d <=? 1) with false by lia.
    replace (user_version d <=? 2) with false by lia.
    rewrite bool_decide_eq_false_2 by lia.
    reflexivity.
Qed.

(** *** Upgrades are additive *)

















Lemma exec_stmts_last_version (l : list stmt) (k : Z) (d d' : db) :
  exec_stmts (l ++ [PragmaUserVersion k]) d = (d', None) ->
  user_version d' = k.
Proof.
  rewrite exec_stmts_app. destruct (exec_stmts l d) as [d1 [e|]];
    [discriminate|]. simpl. unfold exec_stmt.
  destruct (driver_error (PragmaUserVersion k) d1); [discriminate|].
  intros [= <-]. reflexivity.
Qed.

Lemma pending_stmts_last (version : Z) :
  version <= 2 ->
  exists body, pending_stmts version = body ++ [PragmaUserVersion 3].
Proof.
  intros Hv. unfold pending_stmts.
  destruct (pending_steps_cases version)
    as [[_ ->] | [[_ ->] | [[_ ->] | [Hv' _]]]]; [| | | lia];
    match goal with
    | |- exists body, ?l = _ => exists (removelast l); reflexivity
    end.
Qed.





(** C6. If the stored version cannot be read, or if any statement of a
    schema migration fails after those before it were applied, [Migrate]
    returns an error ("database migration failed") and the database is
    left as it was, at its prior stored schema version: the
    transaction rolls back and nothing of the partially applied upgrade
    step is committed.  Conversely, whenever [Migrate] returns an error
    the database is unchanged and the reindexing flag is not raised. *)
Theorem Migrate_error_rolls_back (d : db) :
  (forall l1 s l2 dp err,
      query_error d = None ->
      pending_stmts (user_version d) = l1 ++ s :: l2 ->
      exec_stmts l1 d = (dp, None) ->
      exec_stmt s dp = Err err ->
      Migrate d
        = (d, false, Some (Wrapped "database migration failed" err))) /\
  (forall err,
      query_error d = Some err ->
      Migrate d
        = (d, false, Some (Wrapped "database migration failed" err))) /\
  (forall d' needsReindexing err,
      Migrate d = (d', needsReindexing, Some err) ->
      d' = d /\ user_version d' = user_version d /\
      needsReindexing = false).
Proof.
  split; [|split].
  - intros l1 s l2 dp err Hq Hp H1 Hs. rewrite Migrate_unfold, Hq.
    assert (E : exec_stmts (pending_stmts (user_version d)) d
                = (dp, Some err)).
    { apply exec_stmts_error_iff. eauto 6. }
    rewrite E. reflexivity.
  - intros err Hq. rewrite Migrate_unfold, Hq. reflexivity.
  - intros d' nr err. rewrite Migrate_unfold.
    destruct (query_error d) as [e|].
    + intros [= <- <- _]. auto.
    + destruct (exec_stmts (pending_stmts (user_version d)) d)
        as [d1 [e|]]; [|discriminate].
      intros [= <- <- _]. auto.
Qed.

End Transactions.

(** *** Runs of [Migrate] on concrete databases *)

(** A driver that never fails. *)
Definition no_driver_error : stmt -> db -> option error := fun _ _ => None.
Definition no_query_error : db -> option error := fun _ => None.

(** A new database file, opened. *)
Definition new_db : db := set_foreign_keys true empty_db.

(** The schema that [Migrate] installs in a new database. *)
Definition current_schema : catalog :=
  Eval vm_compute in
    schema (Migrate no_driver_error no_query_error new_db).1.1.

(** The database after [Migrate] on a new file. *)
Definition migrated_db : db := mkDb current_schema 3 true ∅ ∅ ∅.

Example Migrate_new_db :
  Migrate no_driver_error no_query_error new_db = (migrated_db, true, None).
Proof. vm_compute. reflexivity. Qed.

Example Migrate_migrated_db :
  Migrate no_driver_error no_query_error migrated_db
  = (migrated_db, false, None).
Proof. vm_compute. reflexivity. Qed.




(** A database at version 1 in which a view named as the one of the second
    step already exists: the first four statements of that step succeed,
    then [CREATE VIEW] fails. *)
Definition view_clash_db : db :=
  (exec_stmts no_driver_error
     (upgrade_to_1 ++ [CreateView false "notes_with_metadata" "SELECT 1"])
     new_db).1.

Example view_clash_db_version : user_version view_clash_db = 1.
Proof. vm_compute. reflexivity. Qed.

Lemma Migrate_error_rolls_back_witness :
  exists dp,
    exec_stmts no_driver_error (take 4 upgrade_to_2) view_clash_db
      = (dp, None) /\
    dp <> view_clash_db /\
    Migrate no_driver_error no_query_error view_clash_db
    = (view_clash_db, false,
       Some (Wrapped "database migration failed"
               (SqlError "already exists" "notes_with_metadata"))).
Proof.
  exists (exec_stmts no_driver_error (take 4 upgrade_to_2) view_clash_db).1.
  split; [vm_compute; reflexivity|].
  split; [vm_compute; discriminate|].
  apply (proj1 (Migrate_error_rolls_back no_driver_error no_query_error
                  view_clash_db)
           (take 4 upgrade_to_2)
           (CreateView false "notes_with_metadata"
              "SELECT n.*, GROUP_CONCAT(c.name, char(1)) AS tags FROM notes n LEFT JOIN notes_collections nc ON nc.note_id = n.id LEFT JOIN collections c ON nc.collection_id = c.id AND c.kind = 'tag' GROUP BY n.id")
           (drop 5 upgrade_to_2 ++ upgrade_to_3)
           (exec_stmts no_driver_error (take 4 upgrade_to_2) view_clash_db).1);
    vm_compute; reflexivity.
Defined.

(** *** Rows: constraints, foreign-key actions and triggers

    The statements [INSERT INTO t], [UPDATE t ... WHERE id = ?] and
    [DELETE FROM t WHERE id = ?] as SQLite executes them under the
    declarations of the schema: [NOT NULL], [UNIQUE], [REFERENCES ...
    ON DELETE ...] (enforced when [PRAGMA foreign_keys] is on) and the
    [AFTER] triggers. *)

(** The value of a column in a row; an absent value is [NULL]. *)
Definition val (r : row) (c : string) : value := default VNull (r !! c).

Definition set_rows (tbl : string) (rows : gmap Z row) (d : db) : db :=
  set_data (<[tbl := rows]> (data d)) d.

(** The column that aliases the rowid. *)
Definition rowid_alias (t : table) : option string :=
  col_name <$> List.find col_primary_key (tbl_columns t).

(** The value of [c] in the row stored under rowid [stored.1]. *)
Definition column_value (t : table) (stored : Z * row) (c : string) : value :=
  match rowid_alias t with
  | Some a => if String.eqb a c then VInt stored.1 else val stored.2 c
  | None => val stored.2 c
  end.

(** The documents of a full-text index. *)
Definition fts_docs (name : string) (d : db) : list fts_doc :=
  default [] (fts_index d !! name).

Definition set_fts_docs (name : string) (docs : list fts_doc) (d : db) : db :=
  set_fts_index (<[name := docs]> (fts_index d)) d.

(** The FTS5 delete command removes one document with the given rowid and
    values, if the index holds one. *)
Fixpoint remove_first (doc : fts_doc) (l : list fts_doc) : list fts_doc :=
  match l with
  | [] => []
  | x :: l' => if decide (x = doc) then l' else x :: remove_first doc l'
  end.

Definition exec_trigger_stmt (t : table) (old new : Z * row)
  (s : trigger_stmt) (d : db) : db :=
  let ref (x : row_ref * string) :=
    column_value t (match x.1 with New => new | Old => old end) x.2 in
  match s with
  | FtsInsert name rid vals =>
      set_fts_docs name
        (fts_docs name d ++ [mkFtsDoc (ref rid) (map ref vals)]) d
  | FtsDelete name rid vals =>
      set_fts_docs name
        (remove_first (mkFtsDoc (ref rid) (map ref vals)) (fts_docs name d)) d
  end.

(** The bodies of the triggers declared for an event on a table, in
    creation order. *)
Fixpoint triggers_for (ev : trigger_event) (tbl : string) (cat : catalog)
  : list trigger_stmt :=
  match cat with
  | [] => []
  | (_, Trigger tr) :: rest =>
      if bool_decide (trg_event tr = ev) && String.eqb (trg_table tr) tbl
      then trg_body tr ++ triggers_for ev tbl rest
      else triggers_for ev tbl rest
  | _ :: rest => triggers_for ev tbl rest
  end.

Definition fire (ev : trigger_event) (tbl : string) (t : table)
  (old new : Z * row) (d : db) : db :=
  foldl (fun d s => exec_trigger_stmt t old new s d) d
    (triggers_for ev tbl (schema d)).

(** [NOT NULL]: every such column other than the rowid alias has a value. *)
Definition not_null_ok (t : table) (r : row) : bool :=
  forallb (fun c => col_primary_key c || negb (col_not_null c) ||
                    negb (bool_decide (val r (col_name c) = VNull)))
          (tbl_columns t).

(** Two rows collide on the columns [u] of a [UNIQUE] constraint when
    they agree on each of them and none is [NULL]. *)
Definition agree_on (u : list string) (r r' : row) : bool :=
  forallb (fun c => bool_decide (val r c = val r' c) &&
                    negb (bool_decide (val r c = VNull))) u.

(** [UNIQUE]: no other row collides with [r], to be stored under [id]. *)
Definition unique_ok (t : table) (id : Z) (r : row) (rows : gmap Z row)
  : bool :=
  forallb (fun u =>
             negb (existsb (fun kv : Z * row =>
                              negb (kv.1 =? id) && agree_on u r kv.2)
                           (map_to_list rows)))
          (tbl_unique t).

(** [REFERENCES]: with foreign keys on, a reference is [NULL] or the rowid
    of a row of the parent table. *)
Definition foreign_keys_ok (t : table) (r : row) (d : db) : bool :=
  negb (foreign_keys d) ||
  forallb (fun c =>
             match col_references c with
             | None => true
             | Some fk =>
                 match val r (col_name c) with
                 | VNull => true
                 | VInt p =>
                     bool_decide (is_Some (rows_of (fk_table fk) d !! p))
                 | VText _ => false
                 end
             end)
          (tbl_columns t).

(** The row names only columns of the table, and not the rowid alias,
    which [AUTOINCREMENT] assigns. *)
Definition columns_ok (t : table) (r : row) : bool :=
  forallb (fun kv : string * value =>
             existsb (fun c => String.eqb (col_name c) kv.1 &&
                               negb (col_primary_key c))
                     (tbl_columns t))
          (map_to_list r).

Definition check_constraints (tbl : string) (t : table) (id : Z) (r : row)
  (d : db) : option error :=
  if negb (columns_ok t r) then Some (SqlError "no such column" tbl)
  else if negb (not_null_ok t r)
  then Some (SqlError "NOT NULL constraint failed" tbl)
  else if negb (unique_ok t id r (rows_of tbl d))
  then Some (SqlError "UNIQUE constraint failed" tbl)
  else if negb (foreign_keys_ok t r d)
  then Some (SqlError "FOREIGN KEY constraint failed" tbl)
  else None.

(** [AUTOINCREMENT]: one more than the largest rowid ever used. *)
Definition max_rowid (rows : gmap Z row) : Z :=
  foldr Z.max 0 (map fst (map_to_list rows)).

Definition next_rowid (tbl : string) (d : db) : Z :=
  Z.max (default 0 (sequence d !! tbl)) (max_rowid (rows_of tbl d)) + 1.

(** [INSERT INTO tbl (columns of r) VALUES (values of r)]: the rowid
    assigned and the database afterwards. *)
Definition insert_row (tbl : string) (r : row) (d : db) : result (Z * db) :=
  match find_table tbl (schema d) with
  | None => Err (SqlError "no such table" tbl)
  | Some t =>
      let id := next_rowid tbl d in
      match check_constraints tbl t id r d with
      | Some err => Err err
      | None =>
          Ok (id,
              fire AfterInsert tbl t (id, r) (id, r)
                (set_sequence (<[tbl := id]> (sequence d))
                   (set_rows tbl (<[id := r]> (rows_of tbl d)) d)))
      end
  end.

(** [UPDATE tbl SET (columns of r') = (values of r') WHERE id = ?], which
    gives a value to every column but the rowid. *)
Definition update_row (tbl : string) (id : Z) (r' : row) (d : db)
  : result db :=
  match find_table tbl (schema d) with
  | None => Err (SqlError "no such table" tbl)
  | Some t =>
      match rows_of tbl d !! id with
      | None => Ok d
      | Some r =>
          match check_constraints tbl t id r' d with
          | Some err => Err err
          | None =>
              Ok (fire AfterUpdate tbl t (id, r) (id, r')
                    (set_rows tbl (<[id := r']> (rows_of tbl d)) d))
          end
      end
  end.

(** The foreign keys of a table that reference [parent], with their
    [ON DELETE] actions. *)
Definition referencing_columns (parent : string) (t : table)
  : list (column * fk_action) :=
  omap (fun c =>
          match col_references c with
          | Some fk =>
              if String.eqb (fk_table fk) parent
              then Some (c, fk_on_delete fk) else None
          | None => None
          end)
       (tbl_columns t).

(** All the foreign keys of the schema that reference [parent]: the child
    table, its definition, the referencing column and the action. *)
Fixpoint referencing_fks (parent : string) (cat : catalog)
  : list (string * table * column * fk_action) :=
  match cat with
  | [] => []
  | (name, Table t) :: rest =>
      map (fun ca : column * fk_action => (name, t, ca.1, ca.2))
          (referencing_columns parent t)
      ++ referencing_fks parent rest
  | _ :: rest => referencing_fks parent rest
  end.

(** The child row [kv] refers, through column [c], to the parent [id]. *)
Definition refers_to (c : string) (id : Z) (kv : Z * row) : Prop :=
  kv.2 !! c = Some (VInt id).

#[global] Instance refers_to_dec c id kv : Decision (refers_to c id kv).
Proof. unfold refers_to. apply _. Defined.

(** [ON DELETE SET NULL] on one child row. *)
Definition set_null (c : string) (id : Z) (r : row) : row :=
  if decide (r !! c = Some (VInt id)) then <[c := VNull]> r else r.

(** SQLite bounds the nesting of triggers and foreign-key actions
    ([SQLITE_MAX_TRIGGER_DEPTH]). *)
Definition trigger_depth : nat := 1000.

(** [ON DELETE CASCADE]: the child rows that refer to the parent [id]
    are removed, and [rec] runs what follows the removal of each. *)
Definition cascade (rec : Z * row -> db -> result db) (child c : string)
  (id : Z) (d : db) : result db :=
  let rows := rows_of child d in
  foldl (fun acc v =>
           match acc with
           | Err err => Err err
           | Ok d => rec v d
           end)
        (Ok (set_rows child (filter (fun kv => ~ refers_to c id kv) rows) d))
        (map_to_list (filter (refers_to c id) rows)).

(** [ON DELETE SET NULL]: the referring child rows are kept, their
    reference is set to [NULL], and the [AFTER UPDATE] triggers of the
    child table fire for each of them. *)
Definition nullify (child : string) (tc : table) (c : column) (id : Z)
  (d : db) : result db :=
  let rows := rows_of child d in
  let victims := map_to_list (filter (refers_to (col_name c) id) rows) in
  if col_not_null c && negb (bool_decide (victims = []))
  then Err (SqlError "NOT NULL constraint failed" child)
  else
    Ok (foldl (fun d v =>
                 fire AfterUpdate child tc v
                   (v.1, set_null (col_name c) id v.2) d)
              (set_rows child (set_null (col_name c) id <$> rows) d)
              victims).

(** No action: the deletion fails while a child row refers to [id]. *)
Definition restrict (child c : string) (id : Z) (d : db) : result db :=
  match map_to_list (filter (refers_to c id) (rows_of child d)) with
  | [] => Ok d
  | _ :: _ => Err (SqlError "FOREIGN KEY constraint failed" child)
  end.

(** The action of one foreign key that references the removed row [id],
    unless an earlier action failed. *)
Definition on_delete_action
  (rec : string -> table -> Z * row -> db -> result db) (id : Z)
  (acc : result db) (fk : string * table * column * fk_action) : result db :=
  match acc with
  | Err err => Err err
  | Ok d =>
      let '(child, tc, c, act) := fk in
      match act with
      | Cascade => cascade (rec child tc) child (col_name c) id d
      | SetNull => nullify child tc c id d
      | NoAction => restrict child (col_name c) id d
      end
  end.

(** What follows the removal of the row [old] of [tbl]: the [ON DELETE]
    action of every foreign key that references it, when foreign keys are
    on, then the [AFTER DELETE] triggers of [tbl]. *)
Fixpoint after_delete (depth : nat) (tbl : string) (t : table)
  (old : Z * row) (d : db) : result db :=
  match depth with
  | O => Err (SqlError "too many levels of trigger recursion" tbl)
  | S depth' =>
      match (if foreign_keys d
             then foldl (on_delete_action (after_delete depth') old.1)
                        (Ok d) (referencing_fks tbl (schema d))
             else Ok d) with
      | Err err => Err err
      | Ok d' => Ok (fire AfterDelete tbl t old old d')
      end
  end.

(** [DELETE FROM tbl WHERE id = ?]; deleting no row is not an error. *)
Definition delete_row (tbl : string) (id : Z) (d : db) : result db :=
  match find_table tbl (schema d) with
  | None => Err (SqlError "no such table" tbl)
  | Some t =>
      match rows_of tbl d !! id with
      | None => Ok d
      | Some r =>
          after_delete trigger_depth tbl t (id, r)
            (set_rows tbl (delete id (rows_of tbl d)) d)
      end
  end.

(** *** Elementary facts about the row operations *)

Lemma rows_of_set_rows (tbl tbl' : string) (rows : gmap Z row) (d : db) :
  rows_of tbl (set_rows tbl' rows d) =
  if String.eqb tbl tbl' then rows else rows_of tbl d.
Proof.
  unfold rows_of, set_rows. simpl.
  destruct (String.eqb_spec tbl tbl') as [-> | Hne].
  - rewrite lookup_insert_eq. reflexivity.
  - rewrite lookup_insert_ne by congruence. reflexivity.
Qed.

Lemma fts_docs_set_fts_docs (name name' : string) (docs : list fts_doc)
  (d : db) :
  fts_docs name (set_fts_docs name' docs d) =
  if String.eqb name name' then docs else fts_docs name d.
Proof.
  unfold fts_docs, set_fts_docs. simpl.
  destruct (String.eqb_spec name name') as [-> | Hne].
  - rewrite lookup_insert_eq. reflexivity.
  - rewrite lookup_insert_ne by congruence. reflexivity.
Qed.

(** Whatever the triggers do, they leave the schema, the connection
    settings, the counters and the rows as they are. *)
Lemma exec_trigger_stmt_frame (t : table) (old new : Z * row)
  (s : trigger_stmt) (d : db) :
  schema (exec_trigger_stmt t old new s d) = schema d /\
  foreign_keys (exec_trigger_stmt t old new s d) = foreign_keys d /\
  sequence (exec_trigger_stmt t old new s d) = sequence d /\
  data (exec_trigger_stmt t old new s d) = data d.
Proof. destruct s; simpl; auto. Qed.

Lemma fire_stmts_frame (t : table) (old new : Z * row)
  (stmts : list trigger_stmt) (d : db) :
  let d' := foldl (fun d s => exec_trigger_stmt t old new s d) d stmts in
  schema d' = schema d /\ foreign_keys d' = foreign_keys d /\
  sequence d' = sequence d /\ data d' = data d.
Proof.
  revert d. induction stmts as [|s stmts IH]; intros d; simpl; [auto|].
  destruct (IH (exec_trigger_stmt t old new s d)) as (H1 & H2 & H3 & H4).
  destruct (exec_trigger_stmt_frame t old new s d) as (E1 & E2 & E3 & E4).
  simpl in *. rewrite H1, H2, H3, H4. auto.
Qed.

Lemma fire_frame (ev : trigger_event) (tbl : string) (t : table)
  (old new : Z * row) (d : db) :
  schema (fire ev tbl t old new d) = schema d /\
  foreign_keys (fire ev tbl t old new d) = foreign_keys d /\
  sequence (fire ev tbl t old new d) = sequence d /\
  (forall T, rows_of T (fire ev tbl t old new d) = rows_of T d).
Proof.
  unfold fire.
  destruct (fire_stmts_frame t old new (triggers_for ev tbl (schema d)) d)
    as (H1 & H2 & H3 & H4).
  repeat split; try assumption.
  intros T. unfold rows_of. simpl in H4. rewrite H4. reflexivity.
Qed.

Lemma fire_no_trigger (ev : trigger_event) (tbl : string) (t : table)
  (old new : Z * row) (d : db) :
  triggers_for ev tbl (schema d) = [] -> fire ev tbl t old new d = d.
Proof. unfold fire. intros ->. reflexivity. Qed.

(** *** The schema in force after [Migrate] *)

Definition table_named (name : string) : table :=
  default (mkTable [] []) (find_table name current_schema).

Definition notes_table : table := Eval vm_compute in table_named "notes".
Definition links_table : table := Eval vm_compute in table_named "links".
Definition notes_collections_table : table :=
  Eval vm_compute in table_named "notes_collections".

Lemma find_table_notes : find_table "notes" current_schema = Some notes_table.
Proof. reflexivity. Qed.

(** The foreign keys that reference [notes], as declared by [Migrate]:
    a note's links and collection associations go with it, and links to
    it lose their target. *)
Lemma referencing_fks_notes :
  referencing_fks "notes" current_schema =
  [("links", links_table, references "source_id" true "notes" Cascade,
    Cascade);
   ("links", links_table, references "target_id" false "notes" SetNull,
    SetNull);
   ("notes_collections", notes_collections_table,
    references "note_id" true "notes" Cascade, Cascade)].
Proof. reflexivity. Qed.

Lemma referencing_fks_links : referencing_fks "links" current_schema = [].
Proof. reflexivity. Qed.

Lemma referencing_fks_notes_collections :
  referencing_fks "notes_collections" current_schema = [].
Proof. reflexivity. Qed.

(** The triggers on [notes], which keep the full-text index up to date. *)
Lemma triggers_notes :
  triggers_for AfterInsert "notes" current_schema =
    [FtsInsert "notes_fts" (New, "id")
       [(New, "path"); (New, "title"); (New, "body")]] /\
  triggers_for AfterDelete "notes" current_schema =
    [FtsDelete "notes_fts" (Old, "id")
       [(Old, "path"); (Old, "title"); (Old, "body")]] /\
  triggers_for AfterUpdate "notes" current_schema =
    [FtsDelete "notes_fts" (Old, "id")
       [(Old, "path"); (Old, "title"); (Old, "body")];
     FtsInsert "notes_fts" (New, "id")
       [(New, "path"); (New, "title"); (New, "body")]].
Proof. repeat split. Qed.

(** Every trigger of the schema is on [notes]. *)
Definition triggers_only_on (tbl : string) (cat : catalog) : bool :=
  forallb (fun entry : string * schema_object =>
             match entry.2 with
             | Trigger tr => String.eqb (trg_table tr) tbl
             | _ => true
             end) cat.

Lemma triggers_for_other (ev : trigger_event) (tbl only : string)
  (cat : catalog) :
  triggers_only_on only cat = true -> tbl <> only ->
  triggers_for ev tbl cat = [].
Proof.
  intros Hall Hne. induction cat as [|[n o] cat IH]; simpl; [reflexivity|].
  simpl in Hall. apply andb_true_iff in Hall as [Ho Hall].
  destruct o as [t | i | v | tr | sel]; try (apply IH; assumption).
  simpl in Ho. apply String.eqb_eq in Ho. rewrite Ho.
  rewrite (proj2 (String.eqb_neq only tbl)) by congruence.
  rewrite andb_false_r. apply IH. assumption.
Qed.

Lemma triggers_other (ev : trigger_event) (tbl : string) :
  tbl <> "notes" -> triggers_for ev tbl current_schema = [].
Proof. apply triggers_for_other. reflexivity. Qed.

(** No table with a foreign key is named [tbl]. *)
Definition not_a_child (tbl : string) (cat : catalog) : bool :=
  forallb (fun entry : string * schema_object =>
             match entry.2 with
             | Table t =>
                 negb (String.eqb entry.1 tbl) ||
                 forallb (fun c => bool_decide (col_references c = None))
                         (tbl_columns t)
             | _ => true
             end) cat.

Lemma referencing_columns_nil (parent : string) (t : table) :
  forallb (fun c => bool_decide (col_references c = None)) (tbl_columns t)
    = true ->
  referencing_columns parent t = [].
Proof.
  unfold referencing_columns. induction (tbl_columns t) as [|c cs IH]; simpl;
    [reflexivity|].
  intros H. apply andb_true_iff in H as [Hc Hcs].
  apply bool_decide_eq_true in Hc. rewrite Hc. apply IH. assumption.
Qed.

Lemma referencing_fks_child (parent tbl : string) (cat : catalog)
  (fk : string * table * column * fk_action) :
  not_a_child tbl cat = true ->
  fk ∈ referencing_fks parent cat -> fk.1.1.1 <> tbl.
Proof.
  intros Hall. induction cat as [|[n o] cat IH]; simpl.
  - intros H. apply elem_of_nil in H. contradiction.
  - simpl in Hall. apply andb_true_iff in Hall as [Ho Hall].
    destruct o as [t | i | v | tr | sel]; try (apply IH; assumption).
    rewrite elem_of_app. intros [H | H]; [|apply IH; assumption].
    apply list_elem_of_fmap in H as ([c act] & -> & Hin). simpl in *.
    apply orb_true_iff in Ho as [Ho | Ho].
    + apply negb_true_iff, String.eqb_neq in Ho. assumption.
    + rewrite (referencing_columns_nil parent t Ho) in Hin.
      apply elem_of_nil in Hin. contradiction.
Qed.

Lemma referencing_fks_not_notes (parent : string)
  (fk : string * table * column * fk_action) :
  fk ∈ referencing_fks parent current_schema -> fk.1.1.1 <> "notes".
Proof. apply referencing_fks_child. reflexivity. Qed.

(** *** Statements on other tables leave notes and their index alone *)

(** [d'] has the schema, the connection settings, the full-text index and
    the notes of [d]. *)
Definition notes_untouched (d d' : db) : Prop :=
  schema d' = schema d /\ foreign_keys d' = foreign_keys d /\
  fts_index d' = fts_index d /\ rows_of "notes" d' = rows_of "notes" d.

Lemma notes_untouched_refl (d : db) : notes_untouched d d.
Proof. repeat split. Qed.

Lemma notes_untouched_trans (d1 d2 d3 : db) :
  notes_untouched d1 d2 -> notes_untouched d2 d3 -> notes_untouched d1 d3.
Proof.
  intros (A1 & A2 & A3 & A4) (B1 & B2 & B3 & B4).
  repeat split; congruence.
Qed.

Lemma set_rows_untouched (tbl : string) (rows : gmap Z row) (d : db) :
  tbl <> "notes" -> notes_untouched d (set_rows tbl rows d).
Proof.
  intros Hne. repeat split. rewrite rows_of_set_rows.
  rewrite (proj2 (String.eqb_neq "notes" tbl)) by congruence. reflexivity.
Qed.

Lemma fire_other (ev : trigger_event) (tbl : string) (t : table)
  (old new : Z * row) (d : db) :
  schema d = current_schema -> tbl <> "notes" ->
  fire ev tbl t old new d = d.
Proof.
  intros Hs Hne. apply fire_no_trigger. rewrite Hs.
  apply triggers_other. assumption.
Qed.

(** A run of cascaded removals, each followed by [rec]. *)
Lemma cascade_loop_untouched (rec : Z * row -> db -> result db)
  (victims : list (Z * row)) :
  (forall v d1 d2, schema d1 = current_schema -> rec v d1 = Ok d2 ->
                   notes_untouched d1 d2) ->
  forall acc d',
    foldl (fun acc v =>
             match acc with Err err => Err err | Ok d => rec v d end)
          acc victims = Ok d' ->
    exists d0, acc = Ok d0 /\
               (schema d0 = current_schema -> notes_untouched d0 d').
Proof.
  intros Hrec. induction victims as [|v victims IH]; intros acc d'; simpl.
  - intros ->. exists d'. split; [reflexivity|]. intros _.
    apply notes_untouched_refl.
  - intros H. destruct (IH _ _ H) as (d1 & E1 & H1).
    destruct acc as [d0 | err]; [|discriminate].
    exists d0. split; [reflexivity|]. intros Hs.
    pose proof (Hrec v d0 d1 Hs E1) as H01.
    apply (notes_untouched_trans d0 d1 d'); [assumption|].
    apply H1. destruct H01 as (-> & _). assumption.
Qed.

Lemma cascade_untouched (rec : Z * row -> db -> result db)
  (child c : string) (id : Z) (d d' : db) :
  child <> "notes" ->
  (forall v d1 d2, schema d1 = current_schema -> rec v d1 = Ok d2 ->
                   notes_untouched d1 d2) ->
  schema d = current_schema ->
  cascade rec child c id d = Ok d' -> notes_untouched d d'.
Proof.
  intros Hne Hrec Hs H. unfold cascade in H.
  destruct (cascade_loop_untouched rec _ Hrec _ _ H) as (d0 & [= <-] & H0).
  eapply notes_untouched_trans; [|apply H0; assumption].
  apply set_rows_untouched. assumption.
Qed.

Lemma fire_loop_other (child : string) (tc : table)
  (f : Z * row -> Z * row) (victims : list (Z * row)) (d : db) :
  schema d = current_schema -> child <> "notes" ->
  foldl (fun d v => fire AfterUpdate child tc v (f v) d) d victims = d.
Proof.
  intros Hs Hne. induction victims as [|v victims IH]; simpl; [reflexivity|].
  rewrite fire_other by assumption. exact IH.
Qed.

Lemma nullify_eq (child : string) (tc : table) (c : column) (id : Z)
  (d d' : db) :
  schema d = current_schema -> child <> "notes" ->
  nullify child tc c id d = Ok d' ->
  d' = set_rows child (set_null (col_name c) id <$> rows_of child d) d.
Proof.
  intros Hs Hne. unfold nullify.
  destruct (col_not_null c && _); [discriminate|].
  intros [= <-].
  apply (fire_loop_other child tc
           (fun v => (v.1, set_null (col_name c) id v.2))); assumption.
Qed.

Lemma on_delete_action_untouched
  (rec : string -> table -> Z * row -> db -> result db) (id : Z)
  (fk : string * table * column * fk_action) (d d' : db) :
  (forall child tc v d1 d2,
      child <> "notes" -> schema d1 = current_schema ->
      rec child tc v d1 = Ok d2 -> notes_untouched d1 d2) ->
  fk.1.1.1 <> "notes" ->
  schema d = current_schema ->
  on_delete_action rec id (Ok d) fk = Ok d' -> notes_untouched d d'.
Proof.
  intros Hrec Hne Hs. destruct fk as [[[child tc] c] act]. simpl in *.
  destruct act.
  - apply cascade_untouched; try assumption.
    intros v d1 d2. apply Hrec. assumption.
  - intros H. rewrite (nullify_eq child tc c id d d' Hs Hne H).
    apply set_rows_untouched. assumption.
  - unfold restrict. destruct (map_to_list _); [|discriminate].
    intros [= <-]. apply notes_untouched_refl.
Qed.

Lemma actions_untouched
  (rec : string -> table -> Z * row -> db -> result db) (id : Z)
  (fks : list (string * table * column * fk_action)) :
  (forall child tc v d1 d2,
      child <> "notes" -> schema d1 = current_schema ->
      rec child tc v d1 = Ok d2 -> notes_untouched d1 d2) ->
  Forall (fun fk => fk.1.1.1 <> "notes") fks ->
  forall acc d',
    foldl (on_delete_action rec id) acc fks = Ok d' ->
    exists d0, acc = Ok d0 /\
               (schema d0 = current_schema -> notes_untouched d0 d').
Proof.
  intros Hrec Hfks. induction Hfks as [|fk fks Hfk Hfks IH];
    intros acc d'; simpl.
  - intros ->. exists d'. split; [reflexivity|]. intros _.
    apply notes_untouched_refl.
  - intros H. destruct (IH _ _ H) as (d1 & E1 & H1).
    destruct acc as [d0 | err]; [|discriminate].
    exists d0. split; [reflexivity|]. intros Hs.
    pose proof (on_delete_action_untouched rec id fk d0 d1 Hrec Hfk Hs E1)
      as H01.
    apply (notes_untouched_trans d0 d1 d'); [assumption|].
    apply H1. destruct H01 as (-> & _). assumption.
Qed.

(** What follows a removal from a table other than [notes] never reaches
    the notes or their index. *)
Lemma after_delete_other (depth : nat) :
  forall tbl t old d d',
    tbl <> "notes" -> schema d = current_schema ->
    after_delete depth tbl t old d = Ok d' -> notes_untouched d d'.
Proof.
  induction depth as [|depth IH]; intros tbl t old d d' Hne Hs; simpl;
    [discriminate|].
  destruct (if foreign_keys d then _ else _) as [d1 | err] eqn:E;
    [|discriminate].
  intros [= <-].
  assert (H1 : notes_untouched d d1).
  { destruct (foreign_keys d).
    - destruct (actions_untouched (after_delete depth) old.1
                  (referencing_fks tbl (schema d))
                  (fun child tc v d1 d2 Hc => IH child tc v d1 d2 Hc))
        with (acc := Ok d) (d' := d1) as (d0 & [= <-] & H0).
      + rewrite Hs. apply Forall_forall. intros fk.
        apply referencing_fks_not_notes.
      + exact E.
      + apply H0. assumption.
    - injection E as <-. apply notes_untouched_refl. }
  rewrite fire_other; [assumption | | assumption].
  destruct H1 as (-> & _). assumption.
Qed.

(** *** Deleting a note *)

Lemma after_delete_unfold (depth : nat) (tbl : string) (t : table)
  (old : Z * row) (d : db) :
  after_delete (S depth) tbl t old d =
  match (if foreign_keys d
         then foldl (on_delete_action (after_delete depth) old.1)
                    (Ok d) (referencing_fks tbl (schema d))
         else Ok d) with
  | Err err => Err err
  | Ok d' => Ok (fire AfterDelete tbl t old old d')
  end.
Proof. reflexivity. Qed.

(** Nothing follows the removal of a row that no foreign key references
    and on whose table no trigger is declared. *)
Lemma after_delete_leaf (depth : nat) (tbl : string) (t : table)
  (old : Z * row) (d : db) :
  schema d = current_schema ->
  referencing_fks tbl current_schema = [] -> tbl <> "notes" ->
  after_delete (S depth) tbl t old d = Ok d.
Proof.
  intros Hs Hfk Hne. rewrite after_delete_unfold, Hs, Hfk. simpl.
  destruct (foreign_keys d); rewrite fire_other by assumption; reflexivity.
Qed.

Lemma cascade_leaf (rec : Z * row -> db -> result db) (child c : string)
  (id : Z) (d : db) :
  (forall v d1, schema d1 = current_schema -> rec v d1 = Ok d1) ->
  schema d = current_schema ->
  cascade rec child c id d =
  Ok (set_rows child
        (filter (fun kv => ~ refers_to c id kv) (rows_of child d)) d).
Proof.
  intros Hrec Hs. unfold cascade.
  generalize (map_to_list (filter (refers_to c id) (rows_of child d))).
  assert (Hs' : schema (set_rows child
                          (filter (fun kv => ~ refers_to c id kv)
                                  (rows_of child d)) d) = current_schema)
    by exact Hs.
  revert Hs'.
  generalize (set_rows child
                (filter (fun kv => ~ refers_to c id kv) (rows_of child d)) d).
  intros d0 Hs0 victims. induction victims as [|v victims IH]; simpl;
    [reflexivity|].
  rewrite Hrec by assumption. exact IH.
Qed.

Lemma nullify_ok (child : string) (tc : table) (c : column) (id : Z)
  (d : db) :
  schema d = current_schema -> child <> "notes" -> col_not_null c = false ->
  nullify child tc c id d =
  Ok (set_rows child (set_null (col_name c) id <$> rows_of child d) d).
Proof.
  intros Hs Hne Hnn. unfold nullify. rewrite Hnn. simpl. f_equal.
  apply (fire_loop_other child tc
           (fun v => (v.1, set_null (col_name c) id v.2))); assumption.
Qed.

(** The document that the triggers index for the note [r] stored under
    the rowid [id]. *)
Definition note_doc (id : Z) (r : row) : fts_doc :=
  mkFtsDoc (VInt id) [val r "path"; val r "title"; val r "body"].

(** The database after [DELETE FROM notes WHERE id = N], with foreign keys
    on: the row is gone, then the links whose source it was, then the
    target of the links to it, then its collection associations, then its
    document in the full-text index. *)
Definition note_deleted (N : Z) (r : row) (d : db) : db :=
  let d0 := set_rows "notes" (delete N (rows_of "notes" d)) d in
  let d1 :=
    set_rows "links"
      (filter (fun kv => ~ refers_to "source_id" N kv) (rows_of "links" d0))
      d0 in
  let d2 :=
    set_rows "links" (set_null "target_id" N <$> rows_of "links" d1) d1 in
  let d3 :=
    set_rows "notes_collections"
      (filter (fun kv => ~ refers_to "note_id" N kv)
              (rows_of "notes_collections" d2)) d2 in
  set_fts_docs "notes_fts"
    (remove_first (note_doc N r) (fts_docs "notes_fts" d3)) d3.

Lemma delete_note (N : Z) (r : row) (d : db) :
  schema d = current_schema -> foreign_keys d = true ->
  rows_of "notes" d !! N = Some r ->
  delete_row "notes" N d = Ok (note_deleted N r d).
Proof.
  intros Hs Hfk Hr. unfold delete_row.
  rewrite Hs, find_table_notes, Hr. unfold trigger_depth.
  rewrite after_delete_unfold.
  cbn [foreign_keys schema set_rows set_data]. rewrite Hfk, Hs.
  rewrite referencing_fks_notes. cbn [foldl on_delete_action fst].
  rewrite cascade_leaf; [| | exact Hs].
  2:{ intros v d1 Hs1. apply after_delete_leaf;
        [assumption | apply referencing_fks_links | discriminate]. }
  cbn [on_delete_action].
  rewrite nullify_ok; [| exact Hs | discriminate | reflexivity].
  cbn [on_delete_action].
  rewrite cascade_leaf; [| | exact Hs].
  2:{ intros v d1 Hs1. apply after_delete_leaf;
        [assumption | apply referencing_fks_notes_collections
        | discriminate]. }
  f_equal. unfold fire. cbn [schema set_rows set_data]. rewrite Hs.
  destruct triggers_notes as (_ & -> & _). reflexivity.
Qed.

Lemma note_deleted_rows (N : Z) (r : row) (d : db) :
  schema (note_deleted N r d) = schema d /\
  foreign_keys (note_deleted N r d) = foreign_keys d /\
  rows_of "notes" (note_deleted N r d) = delete N (rows_of "notes" d) /\
  rows_of "links" (note_deleted N r d) =
    set_null "target_id" N <$>
      filter (fun kv => ~ refers_to "source_id" N kv) (rows_of "links" d) /\
  fts_docs "notes_fts" (note_deleted N r d) =
    remove_first (note_doc N r) (fts_docs "notes_fts" d).
Proof.
  unfold note_deleted. repeat split.
  - change (rows_of "notes" (set_fts_docs ?n ?l ?d)) with (rows_of "notes" d).
    rewrite !rows_of_set_rows. reflexivity.
  - change (rows_of "links" (set_fts_docs ?n ?l ?d)) with (rows_of "links" d).
    rewrite !rows_of_set_rows. reflexivity.
  - rewrite fts_docs_set_fts_docs. reflexivity.
Qed.

(** *** A small notebook, for the examples *)

Definition example_note (path title body : string) : row :=
  list_to_map [
    ("path", VText path); ("sortable_path", VText path);
    ("title", VText title); ("lead", VText ""); ("body", VText body);
    ("raw_content", VText body); ("word_count", VInt 1);
    ("checksum", VText title); ("created", VText "2021-01-01");
    ("modified", VText "2021-01-01"); ("metadata", VText "{}")].

Definition example_link (source : Z) (target : value) (href : string) : row :=
  list_to_map [
    ("source_id", VInt source); ("target_id", target);
    ("title", VText href); ("href", VText href); ("external", VInt 0);
    ("rels", VText ""); ("snippet", VText href);
    ("snippet_start", VInt 0); ("snippet_end", VInt 1)].

(** The database after a statement; a failing statement changes nothing. *)
Definition after_insert (tbl : string) (r : row) (d : db) : db :=
  match insert_row tbl r d with Ok (_, d') => d' | Err _ => d end.

(** Notes [a.md] (rowid 1) and [b.md] (rowid 2), with the links a -> b
    (rowid 1), b -> a (rowid 2) and a -> a (rowid 3). *)
Definition example_db : db :=
  after_insert "links" (example_link 1 (VInt 1) "a")
    (after_insert "links" (example_link 2 (VInt 1) "a")
       (after_insert "links" (example_link 1 (VInt 2) "b")
          (after_insert "notes" (example_note "b.md" "B" "to a")
             (after_insert "notes" (example_note "a.md" "A" "to b")
                migrated_db)))).

(** *** Cascade on delete *)

(** X1. With the schema installed by [Migrate] and foreign keys on, as [open]
    sets them, deleting an indexed note removes its row and every link
    whose [source_id] it is; every other link is kept under its rowid,
    with all its columns ([href], [title], [snippet], ...) unchanged,
    except that a [target_id] pointing to the note becomes [NULL]. *)
Theorem delete_note_cascades (N : Z) (r : row) (d : db) :
  schema d = current_schema -> foreign_keys d = true ->
  rows_of "notes" d !! N = Some r ->
  exists d',
    delete_row "notes" N d = Ok d' /\
    rows_of "notes" d' = delete N (rows_of "notes" d) /\
    (forall id l,
        rows_of "links" d !! id = Some l ->
        l !! "source_id" = Some (VInt N) ->
        rows_of "links" d' !! id = None) /\
    (forall id l,
        rows_of "links" d !! id = Some l ->
        l !! "source_id" <> Some (VInt N) ->
        exists l',
          rows_of "links" d' !! id = Some l' /\
          l' !! "target_id" =
            (if decide (l !! "target_id" = Some (VInt N))
             then Some VNull else l !! "target_id") /\
          forall c, c <> "target_id" -> l' !! c = l !! c) /\
    (forall id,
        rows_of "links" d !! id = None -> rows_of "links" d' !! id = None).
Proof.
  intros Hs Hfk Hr. exists (note_deleted N r d).
  destruct (note_deleted_rows N r d) as (_ & _ & Hn & Hl & _).
  split; [apply delete_note; assumption|].
  split; [exact Hn|]. rewrite Hl. split; [|split].
  - intros id l Hid Hsrc. rewrite lookup_fmap.
    rewrite (proj2 (map_lookup_filter_None _ _ id)); [reflexivity|].
    right. intros l0 Hl0 Hno. apply Hno. unfold refers_to. simpl.
    congruence.
  - intros id l Hid Hsrc. exists (set_null "target_id" N l).
    rewrite lookup_fmap.
    rewrite (map_lookup_filter_Some_2 _ _ id l Hid); [|exact Hsrc].
    split; [reflexivity|]. unfold set_null.
    destruct (decide (l !! "target_id" = Some (VInt N))) as [E | E].
    + split; [apply lookup_insert_eq|].
      intros c Hc. apply lookup_insert_ne. congruence.
    + split; reflexivity.
  - intros id Hid. rewrite lookup_fmap.
    rewrite (proj2 (map_lookup_filter_None _ _ id)); [reflexivity|].
    left. exact Hid.
Qed.

(** *** Statements on notes *)

Lemma max_rowid_ge (rows : gmap Z row) (k : Z) (r : row) :
  rows !! k = Some r -> k <= max_rowid rows.
Proof.
  intros H. apply elem_of_map_to_list in H. unfold max_rowid.
  induction (map_to_list rows) as [|[k0 r0] l IH]; simpl.
  - apply elem_of_nil in H. contradiction.
  - apply elem_of_cons in H as [[= <- <-] | H]; [lia|].
    specialize (IH H). lia.
Qed.

Lemma next_rowid_fresh (tbl : string) (d : db) :
  rows_of tbl d !! next_rowid tbl d = None.
Proof.
  destruct (rows_of tbl d !! next_rowid tbl d) as [r|] eqn:E; [|reflexivity].
  apply max_rowid_ge in E. unfold next_rowid in E. lia.
Qed.

Lemma not_null_ok_column (t : table) (r : row) (c : column) :
  not_null_ok t r = true -> c ∈ tbl_columns t ->
  col_primary_key c = false -> col_not_null c = true ->
  val r (col_name c) <> VNull.
Proof.
  unfold not_null_ok. rewrite forallb_forall. intros H Hin Hpk Hnn.
  apply list_elem_of_In in Hin. specialize (H c Hin).
  rewrite Hpk, Hnn in H. simpl in H.
  apply negb_true_iff, bool_decide_eq_false in H. exact H.
Qed.

(** A row that passes [UNIQUE(u)] collides with no other stored row. *)
Lemma unique_ok_no_collision (t : table) (id : Z) (r : row)
  (rows : gmap Z row) (u : list string) (j : Z) (r0 : row) :
  unique_ok t id r rows = true -> u ∈ tbl_unique t ->
  rows !! j = Some r0 -> j <> id -> agree_on u r r0 = false.
Proof.
  unfold unique_ok. rewrite forallb_forall. intros H Hu Hj Hne.
  apply list_elem_of_In in Hu. specialize (H u Hu).
  apply negb_true_iff in H.
  destruct (agree_on u r r0) eqn:E; [|reflexivity].
  assert (Hex : existsb (fun kv : Z * row =>
                           negb (kv.1 =? id) && agree_on u r kv.2)
                        (map_to_list rows) = true).
  { apply existsb_exists. exists (j, r0). split.
    - apply list_elem_of_In, elem_of_map_to_list. exact Hj.
    - simpl. rewrite E. rewrite (proj2 (Z.eqb_neq j id)) by assumption.
      reflexivity. }
  congruence.
Qed.

(** Conversely, a collision makes [UNIQUE(u)] fail. *)
Lemma unique_ok_collision (t : table) (id : Z) (r : row)
  (rows : gmap Z row) (u : list string) (j : Z) (r0 : row) :
  u ∈ tbl_unique t -> rows !! j = Some r0 -> j <> id ->
  agree_on u r r0 = true -> unique_ok t id r rows = false.
Proof.
  intros Hu Hj Hne Hag. unfold unique_ok.
  destruct (forallb _ (tbl_unique t)) eqn:E; [|reflexivity].
  rewrite forallb_forall in E. apply list_elem_of_In in Hu.
  specialize (E u Hu). apply negb_true_iff in E.
  assert (Hex : existsb (fun kv : Z * row =>
                           negb (kv.1 =? id) && agree_on u r kv.2)
                        (map_to_list rows) = true).
  { apply existsb_exists. exists (j, r0). split.
    - apply list_elem_of_In, elem_of_map_to_list. exact Hj.
    - simpl. rewrite Hag. rewrite (proj2 (Z.eqb_neq j id)) by assumption.
      reflexivity. }
  congruence.
Qed.

Lemma agree_on_path (r r0 : row) :
  agree_on ["path"] r r0 = true <->
  val r "path" = val r0 "path" /\ val r "path" <> VNull.
Proof.
  unfold agree_on. simpl. rewrite andb_true_r, andb_true_iff.
  rewrite bool_decide_eq_true, negb_true_iff, bool_decide_eq_false.
  reflexivity.
Qed.

(** What a row of [notes] that passes the constraints satisfies. *)
Lemma check_constraints_notes (id : Z) (r : row) (d : db) :
  check_constraints "notes" notes_table id r d = None ->
  val r "path" <> VNull /\
  forall j r0, rows_of "notes" d !! j = Some r0 -> j <> id ->
               val r0 "path" <> val r "path".
Proof.
  unfold check_constraints.
  destruct (columns_ok notes_table r); [|discriminate].
  destruct (not_null_ok notes_table r) eqn:Hnn; [|discriminate].
  destruct (unique_ok notes_table id r (rows_of "notes" d)) eqn:Hu;
    [|discriminate].
  intros _.
  assert (Hp : val r "path" <> VNull).
  { apply (not_null_ok_column notes_table r (not_null "path" "TEXT") Hnn);
      [|reflexivity|reflexivity].
    unfold notes_table. simpl. set_solver. }
  split; [exact Hp|].
  intros j r0 Hj Hne Heq.
  pose proof (unique_ok_no_collision notes_table id r (rows_of "notes" d)
                ["path"] j r0 Hu) as H.
  assert (Hag : agree_on ["path"] r r0 = true)
    by (apply agree_on_path; split; [congruence | exact Hp]).
  rewrite H in Hag; [discriminate | | exact Hj | exact Hne].
  unfold notes_table. simpl. set_solver.
Qed.

Lemma fire_notes_insert (id : Z) (r : row) (d : db) :
  schema d = current_schema ->
  fire AfterInsert "notes" notes_table (id, r) (id, r) d =
  set_fts_docs "notes_fts" (fts_docs "notes_fts" d ++ [note_doc id r]) d.
Proof.
  intros Hs. unfold fire. rewrite Hs.
  destruct triggers_notes as (-> & _ & _). reflexivity.
Qed.

Lemma fire_notes_update (id : Z) (r r' : row) (d : db) :
  schema d = current_schema ->
  fts_docs "notes_fts"
    (fire AfterUpdate "notes" notes_table (id, r) (id, r') d) =
  remove_first (note_doc id r) (fts_docs "notes_fts" d) ++ [note_doc id r'].
Proof.
  intros Hs. unfold fire. rewrite Hs.
  destruct triggers_notes as (_ & _ & ->). cbn [foldl].
  unfold exec_trigger_stmt at 2. cbn [fst snd].
  unfold exec_trigger_stmt. cbn [fst snd].
  rewrite !fts_docs_set_fts_docs. reflexivity.
Qed.

(** The effect of a successful [INSERT INTO notes]. *)
Lemma insert_note_effect (r : row) (d : db) (id : Z) (d' : db) :
  schema d = current_schema ->
  insert_row "notes" r d = Ok (id, d') ->
  schema d' = schema d /\ foreign_keys d' = foreign_keys d /\
  rows_of "notes" d !! id = None /\
  (forall T, rows_of T d' =
             if String.eqb T "notes" then <[id := r]> (rows_of "notes" d)
             else rows_of T d) /\
  fts_docs "notes_fts" d' = fts_docs "notes_fts" d ++ [note_doc id r] /\
  val r "path" <> VNull /\
  (forall j r0, rows_of "notes" d !! j = Some r0 ->
                val r0 "path" <> val r "path").
Proof.
  intros Hs. unfold insert_row. rewrite Hs, find_table_notes.
  destruct (check_constraints "notes" notes_table (next_rowid "notes" d) r d)
    eqn:Hc; [discriminate|].
  intros [= <- <-].
  destruct (check_constraints_notes _ _ _ Hc) as [Hp Hu].
  pose proof (next_rowid_fresh "notes" d) as Hfresh.
  rewrite fire_notes_insert by exact Hs.
  repeat split; try assumption.
  - intros T.
    change (rows_of T (set_fts_docs ?n ?l ?x)) with (rows_of T x).
    change (rows_of T (set_sequence ?q ?x)) with (rows_of T x).
    apply rows_of_set_rows.
  - rewrite fts_docs_set_fts_docs. reflexivity.
  - intros j r0 Hj. apply (Hu j r0 Hj). intros ->. congruence.
Qed.

(** The effect of a successful [UPDATE notes ... WHERE id = ?]. *)
Lemma update_note_effect (id : Z) (r' : row) (d d' : db) :
  schema d = current_schema ->
  update_row "notes" id r' d = Ok d' ->
  (rows_of "notes" d !! id = None /\ d' = d) \/
  (exists r,
      rows_of "notes" d !! id = Some r /\
      schema d' = schema d /\ foreign_keys d' = foreign_keys d /\
      (forall T, rows_of T d' =
                 if String.eqb T "notes" then <[id := r']> (rows_of "notes" d)
                 else rows_of T d) /\
      fts_docs "notes_fts" d' =
        remove_first (note_doc id r) (fts_docs "notes_fts" d)
        ++ [note_doc id r'] /\
      val r' "path" <> VNull /\
      (forall j r0, rows_of "notes" d !! j = Some r0 -> j <> id ->
                    val r0 "path" <> val r' "path")).
Proof.
  intros Hs. unfold update_row. rewrite Hs, find_table_notes.
  destruct (rows_of "notes" d !! id) as [r|] eqn:Hr.
  2:{ intros [= <-]. left. auto. }
  destruct (check_constraints "notes" notes_table id r' d) eqn:Hc;
    [discriminate|].
  intros [= <-]. right. exists r.
  destruct (check_constraints_notes _ _ _ Hc) as [Hp Hu].
  destruct (fire_frame AfterUpdate "notes" notes_table (id, r) (id, r')
              (set_rows "notes" (<[id := r']> (rows_of "notes" d)) d))
    as (F1 & F2 & _ & F4).
  repeat split; try assumption.
  - rewrite F1. exact Hs.
  - intros T. rewrite F4. apply rows_of_set_rows.
  - rewrite fire_notes_update by exact Hs. reflexivity.
Qed.

Lemma insert_other_untouched (tbl : string) (r : row) (d : db) (id : Z)
  (d' : db) :
  schema d = current_schema -> tbl <> "notes" ->
  insert_row tbl r d = Ok (id, d') -> notes_untouched d d'.
Proof.
  intros Hs Hne. unfold insert_row.
  destruct (find_table tbl (schema d)) as [t|]; [|discriminate].
  destruct (check_constraints tbl t (next_rowid tbl d) r d); [discriminate|].
  intros [= <- <-]. rewrite fire_other; [| exact Hs | exact Hne].
  repeat split.
  change (rows_of "notes" (set_sequence ?q ?x)) with (rows_of "notes" x).
  rewrite rows_of_set_rows.
  rewrite (proj2 (String.eqb_neq "notes" tbl)) by congruence. reflexivity.
Qed.

Lemma update_other_untouched (tbl : string) (id : Z) (r' : row) (d d' : db) :
  schema d = current_schema -> tbl <> "notes" ->
  update_row tbl id r' d = Ok d' -> notes_untouched d d'.
Proof.
  intros Hs Hne. unfold update_row.
  destruct (find_table tbl (schema d)) as [t|]; [|discriminate].
  destruct (rows_of tbl d !! id) as [r|].
  2:{ intros [= <-]. apply notes_untouched_refl. }
  destruct (check_constraints tbl t id r' d); [discriminate|].
  intros [= <-]. rewrite fire_other; [| exact Hs | exact Hne].
  apply set_rows_untouched. exact Hne.
Qed.

Lemma delete_other_untouched (tbl : string) (id : Z) (d d' : db) :
  schema d = current_schema -> tbl <> "notes" ->
  delete_row tbl id d = Ok d' -> notes_untouched d d'.
Proof.
  intros Hs Hne. unfold delete_row.
  destruct (find_table tbl (schema d)) as [t|]; [|discriminate].
  destruct (rows_of tbl d !! id) as [r|].
  2:{ intros [= <-]. apply notes_untouched_refl. }
  intros H.
  apply (notes_untouched_trans d
           (set_rows tbl (delete id (rows_of tbl d)) d) d').
  - apply set_rows_untouched. exact Hne.
  - apply (after_delete_other trigger_depth tbl t (id, r)); assumption.
Qed.

(** *** Sequences of statements *)

(** The statements that change rows. *)
Inductive statement : Type :=
| Insert (tbl : string) (r : row)
| Update (tbl : string) (id : Z) (r : row)
| Delete (tbl : string) (id : Z).

Definition table_of (s : statement) : string :=
  match s with
  | Insert tbl _ | Update tbl _ _ | Delete tbl _ => tbl
  end.

Definition exec (s : statement) (d : db) : result db :=
  match s with
  | Insert tbl r =>
      match insert_row tbl r d with
      | Ok (_, d') => Ok d'
      | Err err => Err err
      end
  | Update tbl id r => update_row tbl id r d
  | Delete tbl id => delete_row tbl id d
  end.

(** The database after a statement: a statement that fails has no
    effect. *)
Definition run (s : statement) (d : db) : db :=
  match exec s d with
  | Ok d' => d'
  | Err _ => d
  end.

(** The database after a sequence of statements: every state that a
    committed transaction can leave is of this form, and so is the state
    restored by a rollback. *)
Definition run_all (stmts : list statement) (d : db) : db :=
  foldl (fun d s => run s d) d stmts.

(** The documents that mirror the rows of [notes]. *)
Definition note_docs (rows : gmap Z row) : list fts_doc :=
  (fun kv : Z * row => note_doc kv.1 kv.2) <$> map_to_list rows.

(** No note lacks a path, and no two notes share one. *)
Definition paths_unique (rows : gmap Z row) : Prop :=
  (forall i r, rows !! i = Some r -> val r "path" <> VNull) /\
  (forall i j r1 r2,
      rows !! i = Some r1 -> rows !! j = Some r2 ->
      val r1 "path" = val r2 "path" -> i = j).

Definition notes_invariant (d : db) : Prop :=
  schema d = current_schema /\ foreign_keys d = true /\
  fts_docs "notes_fts" d ≡ₚ note_docs (rows_of "notes" d) /\
  paths_unique (rows_of "notes" d).

Lemma notes_invariant_untouched (d d' : db) :
  notes_untouched d d' -> notes_invariant d -> notes_invariant d'.
Proof.
  intros (U1 & U2 & U3 & U4) (I1 & I2 & I3 & I4).
  unfold notes_invariant, fts_docs. rewrite U1, U2, U3, U4.
  exact (conj I1 (conj I2 (conj I3 I4))).
Qed.

Lemma remove_first_cons (doc : fts_doc) (l : list fts_doc) :
  doc ∈ l -> l ≡ₚ doc :: remove_first doc l.
Proof.
  induction l as [|x l IH]; intros H.
  - apply elem_of_nil in H. contradiction.
  - simpl. destruct (decide (x = doc)) as [-> | Hne]; [reflexivity|].
    apply elem_of_cons in H as [-> | H]; [contradiction|].
    rewrite (IH H) at 1. apply Permutation_swap.
Qed.

Lemma remove_first_perm (doc : fts_doc) (l l0 : list fts_doc) :
  l ≡ₚ doc :: l0 -> remove_first doc l ≡ₚ l0.
Proof.
  intros H. apply (Permutation_cons_inv (a := doc)).
  rewrite <- remove_first_cons; [exact H|].
  rewrite H. apply list_elem_of_here.
Qed.

Lemma note_docs_insert (rows : gmap Z row) (id : Z) (r : row) :
  rows !! id = None ->
  note_docs (<[id := r]> rows) ≡ₚ note_doc id r :: note_docs rows.
Proof.
  intros H. unfold note_docs. rewrite map_to_list_insert by exact H.
  reflexivity.
Qed.

Lemma note_docs_delete (rows : gmap Z row) (id : Z) (r : row) :
  rows !! id = Some r ->
  note_docs rows ≡ₚ note_doc id r :: note_docs (delete id rows).
Proof.
  intros H. unfold note_docs.
  rewrite <- (map_to_list_delete rows id r H). reflexivity.
Qed.

Lemma paths_unique_insert (rows : gmap Z row) (id : Z) (r : row) :
  paths_unique rows -> val r "path" <> VNull ->
  (forall j r0, rows !! j = Some r0 -> j <> id ->
                val r0 "path" <> val r "path") ->
  paths_unique (<[id := r]> rows).
Proof.
  intros [Hnn Hu] Hp Hnew. split.
  - intros i r1. rewrite lookup_insert_Some.
    intros [[<- <-] | [_ H]]; [exact Hp | exact (Hnn i r1 H)].
  - intros i j r1 r2. rewrite !lookup_insert_Some.
    intros [[<- <-] | [Hi H1]] [[<- <-] | [Hj H2]] Heq.
    + reflexivity.
    + exfalso. apply (Hnew j r2 H2); congruence.
    + exfalso. apply (Hnew i r1 H1); congruence.
    + exact (Hu i j r1 r2 H1 H2 Heq).
Qed.

Lemma paths_unique_delete (rows : gmap Z row) (id : Z) :
  paths_unique rows -> paths_unique (delete id rows).
Proof.
  intros [Hnn Hu]. split.
  - intros i r. rewrite lookup_delete_Some. intros [_ H].
    exact (Hnn i r H).
  - intros i j r1 r2. rewrite !lookup_delete_Some.
    intros [_ H1] [_ H2]. exact (Hu i j r1 r2 H1 H2).
Qed.

(** Every statement keeps the invariant. *)
Lemma run_invariant (s : statement) (d : db) :
  notes_invariant d -> notes_invariant (run s d).
Proof.
  intros Hinv. pose proof Hinv as (Hs & Hfk & Hfts & Hpaths).
  unfold run. destruct (exec s d) as [d'|] eqn:E; [|exact Hinv].
  destruct (decide (table_of s = "notes")) as [Ht | Ht].
  - destruct s as [tbl r | tbl id r | tbl id]; simpl in Ht, E; subst tbl.
    + destruct (insert_row "notes" r d) as [[id d0]|] eqn:Ei; [|discriminate].
      injection E as ->.
      destruct (insert_note_effect r d id d' Hs Ei)
        as (S1 & S2 & Hfresh & Hrows & Hdocs & Hp & Hu).
      split; [congruence|]. split; [congruence|].
      rewrite Hdocs, (Hrows "notes"). simpl. split.
      * rewrite note_docs_insert by exact Hfresh.
        rewrite <- Hfts. symmetry. apply Permutation_cons_append.
      * apply paths_unique_insert; try assumption.
        intros j r0 Hj _. exact (Hu j r0 Hj).
    + destruct (update_note_effect id r d d' Hs E)
        as [[_ ->] | (r0 & Hr0 & S1 & S2 & Hrows & Hdocs & Hp & Hu)];
        [exact Hinv|].
      split; [congruence|]. split; [congruence|].
      rewrite Hdocs, (Hrows "notes"). simpl. split.
      * rewrite <- (insert_delete_eq (rows_of "notes" d)).
        rewrite note_docs_insert by apply lookup_delete_eq.
        rewrite <- Permutation_cons_append. apply Permutation_cons; [reflexivity|].
        apply remove_first_perm. rewrite Hfts.
        apply note_docs_delete. exact Hr0.
      * apply paths_unique_insert; assumption.
    + destruct (rows_of "notes" d !! id) as [r|] eqn:Hr.
      * rewrite (delete_note id r d Hs Hfk Hr) in E. injection E as <-.
        destruct (note_deleted_rows id r d) as (S1 & S2 & Hn & _ & Hdocs).
        split; [congruence|]. split; [congruence|].
        rewrite Hdocs, Hn. split.
        -- apply remove_first_perm. rewrite Hfts.
           apply note_docs_delete. exact Hr.
        -- apply paths_unique_delete. exact Hpaths.
      * unfold delete_row in E. rewrite Hs, find_table_notes, Hr in E.
        injection E as <-. exact Hinv.
  - apply (notes_invariant_untouched d d'); [|exact Hinv].
    destruct s as [tbl r | tbl id r | tbl id]; simpl in Ht, E.
    + destruct (insert_row tbl r d) as [[id d0]|] eqn:Ei; [|discriminate].
      injection E as ->. exact (insert_other_untouched tbl r d id d' Hs Ht Ei).
    + exact (update_other_untouched tbl id r d d' Hs Ht E).
    + exact (delete_other_untouched tbl id d d' Hs Ht E).
Qed.

Lemma migrated_db_invariant : notes_invariant migrated_db.
Proof.
  assert (E : rows_of "notes" migrated_db = ∅) by reflexivity.
  split; [reflexivity | split; [reflexivity | split]].
  - rewrite E. reflexivity.
  - rewrite E. split.
    + intros i r H. rewrite lookup_empty in H. discriminate.
    + intros i j r1 r2 H. rewrite lookup_empty in H. discriminate.
Qed.

Lemma run_all_invariant (stmts : list statement) (d : db) :
  notes_invariant d -> notes_invariant (run_all stmts d).
Proof.
  revert d. induction stmts as [|s stmts IH]; intros d H; simpl;
    [exact H|].
  apply IH, run_invariant, H.
Qed.

(** *** The full-text index mirrors the notes *)


(** *** A note's path is unique *)

Lemma check_constraints_duplicate_path (id i : Z) (r r0 : row) (d : db) :
  rows_of "notes" d !! i = Some r0 -> i <> id ->
  val r0 "path" <> VNull -> val r "path" = val r0 "path" ->
  check_constraints "notes" notes_table id r d <> None.
Proof.
  intros Hi Hne Hnn Heq. unfold check_constraints.
  destruct (columns_ok notes_table r); [|discriminate].
  destruct (not_null_ok notes_table r); [|discriminate].
  rewrite (unique_ok_collision notes_table id r (rows_of "notes" d)
             ["path"] i r0); [discriminate | | exact Hi | exact Hne |].
  - unfold notes_table. simpl. set_solver.
  - apply agree_on_path. split; congruence.
Qed.

(** X3. After any sequence of inserts, updates and deletes on a migrated
    database, every note has a path and no two note rows share one;
    inserting a note whose path is already present fails and leaves the
    database as it is, and so does updating a note to the path of
    another one. *)
Theorem note_path_is_unique (stmts : list statement) :
  let d := run_all stmts migrated_db in
  paths_unique (rows_of "notes" d) /\
  (forall r i r0,
      rows_of "notes" d !! i = Some r0 ->
      val r "path" = val r0 "path" ->
      (exists err, insert_row "notes" r d = Err err) /\
      run (Insert "notes" r) d = d) /\
  (forall r i j ri rj,
      rows_of "notes" d !! i = Some ri ->
      rows_of "notes" d !! j = Some rj -> i <> j ->
      val r "path" = val rj "path" ->
      (exists err, update_row "notes" i r d = Err err) /\
      run (Update "notes" i r) d = d).
Proof.
  intros d.
  pose proof (run_all_invariant stmts migrated_db migrated_db_invariant)
    as Hinv.
  fold d in Hinv. pose proof Hinv as (Hs & Hfk & Hfts & Hpaths).
  split; [exact Hpaths|]. destruct Hpaths as [Hnn Hu]. split.
  - intros r i r0 Hi Heq.
    assert (Hne : i <> next_rowid "notes" d).
    { intros ->. rewrite next_rowid_fresh in Hi. discriminate. }
    pose proof (check_constraints_duplicate_path (next_rowid "notes" d) i
                  r r0 d Hi Hne (Hnn i r0 Hi) Heq) as Hc.
    unfold run, exec, insert_row. rewrite Hs, find_table_notes.
    destruct (check_constraints "notes" notes_table
                (next_rowid "notes" d) r d) as [err|];
      [|contradiction].
    split; [exists err|]; reflexivity.
  - intros r i j ri rj Hi Hj Hne Heq.
    assert (Hji : j <> i) by congruence.
    pose proof (check_constraints_duplicate_path i j r rj d Hj Hji
                  (Hnn j rj Hj) Heq) as Hc.
    unfold run, exec, update_row. rewrite Hs, find_table_notes, Hi.
    destruct (check_constraints "notes" notes_table i r d) as [err|];
      [|contradiction].
    split; [exists err|]; reflexivity.
Qed.

Lemma delete_note_cascades_witness :
  schema example_db = current_schema /\ foreign_keys example_db = true /\
  rows_of "notes" example_db !! 1 = Some (example_note "a.md" "A" "to b") /\
  exists d',
    delete_row "notes" 1 example_db = Ok d' /\
    rows_of "notes" d' = delete 1 (rows_of "notes" example_db) /\
    rows_of "links" d' !! 1 = None /\
    (exists l', rows_of "links" d' !! 2 = Some l' /\
                l' !! "target_id" = Some VNull /\
                l' !! "href" = Some (VText "a")).
Proof.
  assert (Hs : schema example_db = current_schema) by (vm_compute; reflexivity).
  assert (Hfk : foreign_keys example_db = true) by (vm_compute; reflexivity).
  assert (Hr : rows_of "notes" example_db !! 1
               = Some (example_note "a.md" "A" "to b"))
    by (vm_compute; reflexivity).
  split; [exact Hs|]. split; [exact Hfk|]. split; [exact Hr|].
  destruct (delete_note_cascades 1 (example_note "a.md" "A" "to b")
              example_db Hs Hfk Hr)
    as (d' & Hd & Hn & Hsrc & Hkeep & _).
  exists d'. split; [exact Hd|]. split; [exact Hn|]. split.
  - apply (Hsrc 1 (example_link 1 (VInt 2) "b")); vm_compute; reflexivity.
  - destruct (Hkeep 2 (example_link 2 (VInt 1) "a"))
      as (l' & Hl' & Ht & Hc);
      [vm_compute; reflexivity | vm_compute; discriminate |].
    exists l'. split; [exact Hl'|]. split.
    + rewrite Ht. vm_compute. reflexivity.
    + rewrite Hc by discriminate. vm_compute. reflexivity.
Defined.

(** *** More on [Migrate] and [open] *)

Section MigrateAgain.

Variable driver_error : stmt -> db -> option error.
Variable query_error : db -> option error.
Variable open_error : db -> option error.

Lemma Migrate_success (d d' : db) (needsReindexing : bool) :
  Migrate driver_error query_error d = (d', needsReindexing, None) ->
  exec_stmts driver_error (pending_stmts (user_version d)) d = (d', None) /\
  needsReindexing = bool_decide (user_version d <= 2).
Proof.
  rewrite Migrate_unfold. destruct (query_error d); [discriminate|].
  destruct (exec_stmts driver_error (pending_stmts (user_version d)) d)
    as [d1 [e|]]; [discriminate|].
  intros [= <- <-]. auto.
Qed.

Lemma Migrate_success_version (d d' : db) (needsReindexing : bool) :
  Migrate driver_error query_error d = (d', needsReindexing, None) ->
  user_version d <= current_version -> user_version d' = current_version.
Proof.
  intros HM Hv. destruct (Migrate_success d d' needsReindexing HM) as [Hex _].
  unfold current_version in *.
  destruct (decide (user_version d <= 2)) as [H2 | H2].
  - destruct (pending_stmts_last (user_version d) H2) as [body Eb].
    rewrite Eb in Hex.
    apply (exec_stmts_last_version driver_error _ _ _ _ Hex).
  - unfold pending_stmts in Hex.
    destruct (pending_steps_cases (user_version d))
      as [[? _] | [[? _] | [[? _] | [_ E]]]]; try lia.
    rewrite E in Hex. injection Hex as <-. lia.
Qed.

(** X7. Once [Migrate] has succeeded, running it again on the resulting
    database (the stored version being readable) applies no statement,
    changes nothing and does not ask for a reindexing: the flag is raised
    by the one run that performs the upgrade, and by no later run. *)
Theorem Migrate_twice (d d' : db) (needsReindexing : bool) :
  Migrate driver_error query_error d = (d', needsReindexing, None) ->
  user_version d <= current_version ->
  query_error d' = None ->
  Migrate driver_error query_error d' = (d', false, None).
Proof.
  intros HM Hv Hq.
  pose proof (Migrate_success_version d d' needsReindexing HM Hv) as Hv'.
  rewrite Migrate_unfold, Hq, Hv'. reflexivity.
Qed.

(** [open] turns foreign keys on and changes nothing else of the
    database it opens. *)
Lemma open_Ok (stored d : db) :
  open open_error stored = Ok d ->
  d = set_foreign_keys true stored.
Proof.
  unfold open. destruct (open_error stored); [discriminate|].
  intros [= <-]. reflexivity.
Qed.

End MigrateAgain.

Lemma Migrate_twice_witness :
  Migrate no_driver_error no_query_error new_db = (migrated_db, true, None) /\
  user_version new_db <= current_version /\
  Migrate no_driver_error no_query_error migrated_db
    = (migrated_db, false, None).
Proof.
  assert (H : Migrate no_driver_error no_query_error new_db
              = (migrated_db, true, None)) by (vm_compute; reflexivity).
  assert (Hv : user_version new_db <= current_version)
    by (vm_compute; discriminate).
  split; [exact H|]. split; [exact Hv|].
  apply (Migrate_twice no_driver_error no_query_error new_db migrated_db
           true H Hv).
  reflexivity.
Defined.

(** X6. [open] always turns foreign keys on, leaving the stored database
    otherwise as it is; and this matters: on a connection where they are
    off, deleting a note removes its row but keeps every link row as it
    was, those whose [source_id] or [target_id] is the deleted note
    included. *)
Theorem open_enables_cascade (open_error : db -> option error) :
  (forall stored d,
      open open_error stored = Ok d ->
      foreign_keys d = true /\ schema d = schema stored /\
      user_version d = user_version stored /\ data d = data stored /\
      fts_index d = fts_index stored) /\
  (forall N r d,
      schema d = current_schema -> foreign_keys d = false ->
      rows_of "notes" d !! N = Some r ->
      exists d',
        delete_row "notes" N d = Ok d' /\
        rows_of "notes" d' = delete N (rows_of "notes" d) /\
        rows_of "links" d' = rows_of "links" d).
Proof.
  split.
  - intros stored d H. rewrite (open_Ok open_error stored d H).
    repeat split.
  - intros N r d Hs Hfk Hr. unfold delete_row.
    rewrite Hs, find_table_notes, Hr. unfold trigger_depth.
    rewrite after_delete_unfold.
    cbn [foreign_keys schema set_rows set_data]. rewrite Hfk.
    eexists. split; [reflexivity|].
    destruct (fire_frame AfterDelete "notes" notes_table (N, r) (N, r)
                (set_rows "notes" (delete N (rows_of "notes" d)) d))
      as (_ & _ & _ & F).
    rewrite !F, !rows_of_set_rows. split; reflexivity.
Qed.

(** Foreign keys off: the links of [example_db] survive the deletion of
    the note [a.md]. *)
Definition example_db_fk_off : db := set_foreign_keys false example_db.

Lemma open_enables_cascade_witness :
  schema example_db_fk_off = current_schema /\
  foreign_keys example_db_fk_off = false /\
  rows_of "notes" example_db_fk_off !! 1
    = Some (example_note "a.md" "A" "to b") /\
  exists d',
    delete_row "notes" 1 example_db_fk_off = Ok d' /\
    rows_of "notes" d' = delete 1 (rows_of "notes" example_db_fk_off) /\
    rows_of "links" d' = rows_of "links" example_db_fk_off.
Proof.
  assert (Hs : schema example_db_fk_off = current_schema)
    by (vm_compute; reflexivity).
  assert (Hfk : foreign_keys example_db_fk_off = false)
    by (vm_compute; reflexivity).
  assert (Hr : rows_of "notes" example_db_fk_off !! 1
               = Some (example_note "a.md" "A" "to b"))
    by (vm_compute; reflexivity).
  split; [exact Hs|]. split; [exact Hfk|]. split; [exact Hr|].
  exact (proj2 (open_enables_cascade no_query_error) 1 _ _ Hs Hfk Hr).
Defined.

(** *** What the upgrade to version 3 does to the rows already stored *)

(** The rows after a statement that succeeds: only [ALTER TABLE ADD
    COLUMN] touches them, giving the new column its default in every row
    of the table. *)
Definition stmt_data (s : stmt) (m : gmap string (gmap Z row))
  : gmap string (gmap Z row) :=
  match s with
  | AlterTableAddColumn name c =>
      match added_column_value c with
      | Some v => alter (fmap (insert (col_name c) v)) name m
      | None => m
      end
  | _ => m
  end.

Lemma create_object_data (ine : bool) (name : string)
  (k : schema_object -> bool) (o : schema_object) (d d' : db) :
  create_object ine name k o d = Ok d' -> data d' = data d.
Proof.
  unfold create_object. destruct (lookup_object name (schema d)).
  - destruct (ine && k s); [|discriminate]. intros [= <-]. reflexivity.
  - intros [= <-]. reflexivity.
Qed.

Lemma exec_stmt_data (driver_error : stmt -> db -> option error)
  (s : stmt) (d d' : db) :
  exec_stmt driver_error s d = Ok d' -> data d' = stmt_data s (data d).
Proof.
  unfold exec_stmt. destruct (driver_error s d); [discriminate|].
  destruct s as [ine name t | ine name i | ine name v | ine name t
                | ine name sel | name c | v]; simpl.
  - apply create_object_data.
  - destruct (find_table (idx_table i) (schema d)); [|discriminate].
    apply create_object_data.
  - apply create_object_data.
  - destruct (find_table (trg_table t) (schema d)); [|discriminate].
    apply create_object_data.
  - apply create_object_data.
  - destruct (find_table name (schema d)) as [t|]; [|discriminate].
    destruct (bool_decide _); [discriminate|].
    destruct (added_column_value c) as [v|]; [|discriminate].
    intros [= <-]. reflexivity.
  - intros [= <-]. reflexivity.
Qed.

Lemma exec_stmts_data (driver_error : stmt -> db -> option error)
  (l : list stmt) (d d' : db) :
  exec_stmts driver_error l d = (d', None) ->
  data d' = foldl (fun m s => stmt_data s m) (data d) l.
Proof.
  revert d. induction l as [|s l IH]; intros d; simpl.
  - intros [= <-]. reflexivity.
  - destruct (exec_stmt driver_error s d) as [d1|] eqn:E; [|discriminate].
    intros H. rewrite (IH d1 H), (exec_stmt_data _ s d d1 E). reflexivity.
Qed.

(** The rows of [tbl] after a default was added to the rows of [name]. *)
Lemma lookup_alter_rows (tbl name c : string) (v : value)
  (m : gmap string (gmap Z row)) :
  default ∅ (alter (fmap (insert c v)) name m !! tbl) =
  if String.eqb tbl name
  then insert c v <$> default ∅ (m !! tbl)
  else default ∅ (m !! tbl).
Proof.
  destruct (String.eqb_spec tbl name) as [-> | Hne].
  - rewrite lookup_alter_eq. destruct (m !! name); simpl;
      [reflexivity | rewrite fmap_empty; reflexivity].
  - rewrite lookup_alter_ne by congruence. reflexivity.
Qed.

(** X8. A successful [Migrate] from a stored version of at most 2 raises the
    reindexing flag and keeps every stored row, completing it with the
    defaults of the columns added by the upgrade to version 3: the
    [metadata] of each existing note is the empty object and the snippet
    offsets of each existing link are 0, whatever the content they were
    indexed from; the rows of the other tables are unchanged. *)
Theorem Migrate_fills_defaults
  (driver_error : stmt -> db -> option error)
  (query_error : db -> option error) (d d' : db) (needsReindexing : bool) :
  user_version d <= 2 ->
  Migrate driver_error query_error d = (d', needsReindexing, None) ->
  needsReindexing = true /\
  rows_of "notes" d' = insert "metadata" (VText "{}") <$> rows_of "notes" d /\
  rows_of "links" d' =
    (fun l => <["snippet_end" := VInt 0]> (<["snippet_start" := VInt 0]> l))
    <$> rows_of "links" d /\
  (forall T, T <> "notes" -> T <> "links" -> rows_of T d' = rows_of T d).
Proof.
  intros Hv HM.
  destruct (Migrate_success driver_error query_error d d' needsReindexing HM)
    as [Hex Hnr].
  split; [rewrite Hnr; apply bool_decide_eq_true_2; exact Hv|].
  apply exec_stmts_data in Hex. unfold pending_stmts in Hex.
  assert (Hdata :
    data d' =
    alter (fmap (insert "snippet_end" (VInt 0))) "links"
      (alter (fmap (insert "snippet_start" (VInt 0))) "links"
         (alter (fmap (insert "metadata" (VText "{}"))) "notes" (data d)))).
  { destruct (pending_steps_cases (user_version d))
      as [[_ E] | [[_ E] | [[_ E] | [? _]]]]; [| | | lia];
      rewrite E in Hex; exact Hex. }
  clear Hex. unfold rows_of. rewrite Hdata. split; [|split].
  - rewrite !lookup_alter_rows. reflexivity.
  - rewrite !lookup_alter_rows. simpl.
    rewrite <- map_fmap_compose. reflexivity.
  - intros T H1 H2. rewrite !lookup_alter_rows.
    rewrite (proj2 (String.eqb_neq T "links")) by assumption.
    rewrite (proj2 (String.eqb_neq T "notes")) by assumption.
    reflexivity.
Qed.

(** A database at version 2 that holds a note and a link. *)
Definition version_2_db : db :=
  set_data
    (<["links" := {[ 1 := {[ "source_id" := VInt 1; "href" := VText "b" ]} ]}]>
       (<["notes" := {[ 1 := {[ "path" := VText "a.md" ]} ]}]> ∅))
    (exec_stmts no_driver_error (upgrade_to_1 ++ upgrade_to_2) new_db).1.

Lemma Migrate_fills_defaults_witness :
  user_version version_2_db <= 2 /\
  exists d',
    Migrate no_driver_error no_query_error version_2_db = (d', true, None) /\
    rows_of "notes" d' !! 1
      = Some {[ "path" := VText "a.md"; "metadata" := VText "{}" ]}.
Proof.
  assert (Hv : user_version version_2_db <= 2) by (vm_compute; discriminate).
  split; [exact Hv|].
  exists (Migrate no_driver_error no_query_error version_2_db).1.1.
  assert (HM : Migrate no_driver_error no_query_error version_2_db
               = ((Migrate no_driver_error no_query_error
                     version_2_db).1.1, true, None))
    by (vm_compute; reflexivity).
  split; [exact HM|].
  destruct (Migrate_fills_defaults no_driver_error no_query_error
              version_2_db _ true Hv HM) as (_ & Hn & _).
  rewrite Hn. vm_compute. reflexivity.
Defined.

(** *** Links refer to notes *)

(** Deletions that never reach the rows of a given table. *)
Section RowsUntouched.

(** The table [T] whose rows are followed, and the tables [safe] to
    delete from: no foreign key leads from them to [T], nor to a table
    that is not safe itself. *)
Variable T : string.
Variable safe : string -> Prop.
Hypothesis safe_children :
  forall parent fk,
    safe parent -> fk ∈ referencing_fks parent current_schema ->
    fk.1.1.1 <> T /\ safe fk.1.1.1.

Definition rows_untouched (d d' : db) : Prop :=
  schema d' = schema d /\ rows_of T d' = rows_of T d.

Lemma rows_untouched_trans (d1 d2 d3 : db) :
  rows_untouched d1 d2 -> rows_untouched d2 d3 -> rows_untouched d1 d3.
Proof. intros [A1 A2] [B1 B2]. split; congruence. Qed.

Lemma set_rows_rows_untouched (tbl : string) (rows : gmap Z row) (d : db) :
  tbl <> T -> rows_untouched d (set_rows tbl rows d).
Proof.
  intros Hne. split; [reflexivity|]. rewrite rows_of_set_rows.
  rewrite (proj2 (String.eqb_neq T tbl)) by congruence. reflexivity.
Qed.

Lemma fire_rows_untouched (ev : trigger_event) (tbl : string) (t : table)
  (old new : Z * row) (d : db) :
  rows_untouched d (fire ev tbl t old new d).
Proof.
  destruct (fire_frame ev tbl t old new d) as (F1 & _ & _ & F4).
  split; [exact F1 | apply F4].
Qed.

Lemma fire_loop_rows_untouched (child : string) (tc : table)
  (f : Z * row -> Z * row) (victims : list (Z * row)) (d : db) :
  rows_untouched d
    (foldl (fun d v => fire AfterUpdate child tc v (f v) d) d victims).
Proof.
  revert d. induction victims as [|v victims IH]; intros d; simpl.
  - split; reflexivity.
  - eapply rows_untouched_trans; [|apply IH]. apply fire_rows_untouched.
Qed.

Lemma cascade_loop_rows_untouched (rec : Z * row -> db -> result db)
  (victims : list (Z * row)) :
  (forall v d1 d2, schema d1 = current_schema -> rec v d1 = Ok d2 ->
                   rows_untouched d1 d2) ->
  forall acc d',
    foldl (fun acc v =>
             match acc with Err err => Err err | Ok d => rec v d end)
          acc victims = Ok d' ->
    exists d0, acc = Ok d0 /\
               (schema d0 = current_schema -> rows_untouched d0 d').
Proof.
  intros Hrec. induction victims as [|v victims IH]; intros acc d'; simpl.
  - intros ->. exists d'. split; [reflexivity|]. intros _. split; reflexivity.
  - intros H. destruct (IH _ _ H) as (d1 & E1 & H1).
    destruct acc as [d0 | err]; [|discriminate].
    exists d0. split; [reflexivity|]. intros Hs.
    pose proof (Hrec v d0 d1 Hs E1) as H01.
    apply (rows_untouched_trans d0 d1 d'); [assumption|].
    apply H1. destruct H01 as (-> & _). assumption.
Qed.

Lemma on_delete_action_rows_untouched
  (rec : string -> table -> Z * row -> db -> result db) (id : Z)
  (fk : string * table * column * fk_action) (d d' : db) :
  (forall child tc v d1 d2,
      safe child -> schema d1 = current_schema ->
      rec child tc v d1 = Ok d2 -> rows_untouched d1 d2) ->
  fk.1.1.1 <> T -> safe fk.1.1.1 ->
  schema d = current_schema ->
  on_delete_action rec id (Ok d) fk = Ok d' -> rows_untouched d d'.
Proof.
  intros Hrec Hne Hsafe Hs. destruct fk as [[[child tc] c] act].
  simpl in *. destruct act.
  - unfold cascade. intros H.
    destruct (cascade_loop_rows_untouched (rec child tc) _
                (fun v d1 d2 => Hrec child tc v d1 d2 Hsafe) _ _ H)
      as (d0 & [= <-] & H0).
    eapply rows_untouched_trans; [|apply H0; exact Hs].
    apply set_rows_rows_untouched. exact Hne.
  - unfold nullify. destruct (col_not_null c && _); [discriminate|].
    intros [= <-].
    eapply rows_untouched_trans;
      [|apply (fire_loop_rows_untouched child tc
                 (fun v => (v.1, set_null (col_name c) id v.2)))].
    apply set_rows_rows_untouched. exact Hne.
  - unfold restrict. destruct (map_to_list _); [|discriminate].
    intros [= <-]. split; reflexivity.
Qed.

Lemma actions_rows_untouched
  (rec : string -> table -> Z * row -> db -> result db) (id : Z)
  (fks : list (string * table * column * fk_action)) :
  (forall child tc v d1 d2,
      safe child -> schema d1 = current_schema ->
      rec child tc v d1 = Ok d2 -> rows_untouched d1 d2) ->
  Forall (fun fk => fk.1.1.1 <> T /\ safe fk.1.1.1) fks ->
  forall acc d',
    foldl (on_delete_action rec id) acc fks = Ok d' ->
    exists d0, acc = Ok d0 /\
               (schema d0 = current_schema -> rows_untouched d0 d').
Proof.
  intros Hrec Hfks. induction Hfks as [|fk fks [Hfk1 Hfk2] Hfks IH];
    intros acc d'; simpl.
  - intros ->. exists d'. split; [reflexivity|]. intros _. split; reflexivity.
  - intros H. destruct (IH _ _ H) as (d1 & E1 & H1).
    destruct acc as [d0 | err]; [|discriminate].
    exists d0. split; [reflexivity|]. intros Hs.
    pose proof (on_delete_action_rows_untouched rec id fk d0 d1 Hrec
                  Hfk1 Hfk2 Hs E1) as H01.
    apply (rows_untouched_trans d0 d1 d'); [assumption|].
    apply H1. destruct H01 as (-> & _). assumption.
Qed.

Lemma after_delete_rows_untouched (depth : nat) :
  forall tbl t old d d',
    safe tbl -> schema d = current_schema ->
    after_delete depth tbl t old d = Ok d' -> rows_untouched d d'.
Proof using safe_children.
  induction depth as [|depth IH]; intros tbl t old d d' Hsafe Hs; simpl;
    [discriminate|].
  destruct (if foreign_keys d then _ else _) as [d1 | err] eqn:E;
    [|discriminate].
  intros [= <-].
  eapply rows_untouched_trans; [|apply fire_rows_untouched].
  destruct (foreign_keys d).
  - destruct (actions_rows_untouched (after_delete depth) old.1
                (referencing_fks tbl (schema d))
                (fun child tc v d1 d2 Hc => IH child tc v d1 d2 Hc))
      with (acc := Ok d) (d' := d1) as (d0 & [= <-] & H0).
    + rewrite Hs. apply Forall_forall. intros fk Hfk.
      exact (safe_children tbl fk Hsafe Hfk).
    + exact E.
    + apply H0. exact Hs.
  - injection E as <-. split; reflexivity.
Qed.

End RowsUntouched.

(** In the schema of [Migrate], every foreign key of [links] references
    [notes]. *)
Definition references_only (child parent : string) (cat : catalog) : bool :=
  forallb (fun entry : string * schema_object =>
             match entry.2 with
             | Table t =>
                 negb (String.eqb entry.1 child) ||
                 forallb (fun c =>
                            match col_references c with
                            | Some fk => String.eqb (fk_table fk) parent
                            | None => true
                            end)
                         (tbl_columns t)
             | _ => true
             end) cat.

Lemma referencing_columns_parent (parent only : string) (t : table)
  (ca : column * fk_action) :
  forallb (fun c =>
             match col_references c with
             | Some fk => String.eqb (fk_table fk) only
             | None => true
             end) (tbl_columns t) = true ->
  ca ∈ referencing_columns parent t -> parent = only.
Proof.
  unfold referencing_columns. rewrite forallb_forall. intros Hall Hin.
  apply list_elem_of_omap in Hin as (c & Hc & Hm).
  apply list_elem_of_In in Hc. specialize (Hall c Hc).
  destruct (col_references c) as [fk|]; [|discriminate].
  destruct (String.eqb_spec (fk_table fk) parent) as [E|]; [|discriminate].
  apply String.eqb_eq in Hall. congruence.
Qed.

Lemma referencing_fks_only (parent child only : string) (cat : catalog)
  (fk : string * table * column * fk_action) :
  references_only child only cat = true ->
  fk ∈ referencing_fks parent cat -> fk.1.1.1 = child -> parent = only.
Proof.
  intros Hall. induction cat as [|[n o] cat IH]; simpl.
  - intros H. apply elem_of_nil in H. contradiction.
  - simpl in Hall. apply andb_true_iff in Hall as [Ho Hall].
    destruct o as [t | i | v | tr | sel]; try (apply IH; assumption).
    rewrite elem_of_app. intros [H | H]; [|apply IH; assumption].
    apply list_elem_of_fmap in H as ([c act] & -> & Hin). simpl in *.
    intros ->. apply orb_true_iff in Ho as [Ho | Ho].
    + apply negb_true_iff, String.eqb_neq in Ho. contradiction.
    + exact (referencing_columns_parent parent only t (c, act) Ho Hin).
Qed.

Lemma links_safe_children (parent : string)
  (fk : string * table * column * fk_action) :
  parent <> "notes" -> fk ∈ referencing_fks parent current_schema ->
  fk.1.1.1 <> "links" /\ fk.1.1.1 <> "notes".
Proof.
  intros Hp Hfk. split.
  - intros E. apply Hp.
    apply (referencing_fks_only parent "links" "notes" current_schema fk);
      [reflexivity | exact Hfk | exact E].
  - exact (referencing_fks_not_notes parent fk Hfk).
Qed.

Lemma find_table_links : find_table "links" current_schema = Some links_table.
Proof. reflexivity. Qed.

(** The row [l] of [links] refers to notes of [notes]: its [source_id] is
    the rowid of one of them, and its [target_id] is [NULL] or the rowid
    of one of them. *)
Definition link_refers (notes : gmap Z row) (l : row) : Prop :=
  (exists s, l !! "source_id" = Some (VInt s) /\ is_Some (notes !! s)) /\
  (val l "target_id" = VNull \/
   exists t, l !! "target_id" = Some (VInt t) /\ is_Some (notes !! t)).

Definition links_refer_to_notes (d : db) : Prop :=
  forall id l, rows_of "links" d !! id = Some l ->
               link_refers (rows_of "notes" d) l.

Lemma val_VInt (r : row) (c : string) (n : Z) :
  val r c = VInt n -> r !! c = Some (VInt n).
Proof. unfold val. destruct (r !! c); simpl; congruence. Qed.

Lemma foreign_keys_ok_column (t : table) (r : row) (d : db) (c : column)
  (fk : foreign_key) :
  foreign_keys d = true -> foreign_keys_ok t r d = true ->
  c ∈ tbl_columns t -> col_references c = Some fk ->
  val r (col_name c) = VNull \/
  exists p, val r (col_name c) = VInt p /\
            is_Some (rows_of (fk_table fk) d !! p).
Proof.
  unfold foreign_keys_ok. intros -> H Hin Hfk. simpl in H.
  rewrite forallb_forall in H. apply list_elem_of_In in Hin.
  specialize (H c Hin). rewrite Hfk in H.
  destruct (val r (col_name c)) as [|p|s]; [left; reflexivity | | discriminate].
  right. exists p. split; [reflexivity|].
  apply bool_decide_eq_true in H. exact H.
Qed.

(** A row of [links] that passes the constraints refers to notes. *)
Lemma check_constraints_links (id : Z) (r : row) (d : db) :
  foreign_keys d = true ->
  check_constraints "links" links_table id r d = None ->
  link_refers (rows_of "notes" d) r.
Proof.
  intros Hfk. unfold check_constraints.
  destruct (columns_ok links_table r); [|discriminate].
  destruct (not_null_ok links_table r) eqn:Hnn; [|discriminate].
  destruct (unique_ok links_table id r (rows_of "links" d)); [|discriminate].
  destruct (foreign_keys_ok links_table r d) eqn:Hok; [|discriminate].
  intros _. split.
  - destruct (foreign_keys_ok_column links_table r d
                (references "source_id" true "notes" Cascade)
                (mkForeignKey "notes" "id" Cascade) Hfk Hok)
      as [Hnull | (p & Hp & Hin)];
      [unfold links_table; simpl; set_solver | reflexivity | |].
    + exfalso.
      apply (not_null_ok_column links_table r
               (references "source_id" true "notes" Cascade) Hnn);
        [unfold links_table; simpl; set_solver | reflexivity | reflexivity
        | exact Hnull].
    + exists p. split; [apply val_VInt; exact Hp | exact Hin].
  - destruct (foreign_keys_ok_column links_table r d
                (references "target_id" false "notes" SetNull)
                (mkForeignKey "notes" "id" SetNull) Hfk Hok)
      as [Hnull | (p & Hp & Hin)];
      [unfold links_table; simpl; set_solver | reflexivity | |].
    + left. exact Hnull.
    + right. exists p. split; [apply val_VInt; exact Hp | exact Hin].
Qed.

Lemma link_refers_mono (notes notes' : gmap Z row) (l : row) :
  (forall k, is_Some (notes !! k) -> is_Some (notes' !! k)) ->
  link_refers notes l -> link_refers notes' l.
Proof.
  intros Hsub [(s & Hs & Hin) Ht]. split.
  - exists s. auto.
  - destruct Ht as [Hn | (t & Ht & Hin')]; [left; exact Hn|].
    right. exists t. auto.
Qed.

(** Statements on tables other than [notes]: the rows of [links] after
    them come from the statement itself or were there before. *)
Lemma insert_other_links (tbl : string) (r : row) (d : db) (id : Z)
  (d' : db) :
  schema d = current_schema -> foreign_keys d = true -> tbl <> "notes" ->
  insert_row tbl r d = Ok (id, d') ->
  forall k l, rows_of "links" d' !! k = Some l ->
              rows_of "links" d !! k = Some l \/
              link_refers (rows_of "notes" d) l.
Proof.
  intros Hs Hfk Hne. unfold insert_row.
  destruct (find_table tbl (schema d)) as [t|] eqn:Ht; [|discriminate].
  destruct (check_constraints tbl t (next_rowid tbl d) r d) eqn:Hc;
    [discriminate|].
  intros [= <- <-] k l. rewrite fire_other; [| exact Hs | exact Hne].
  change (rows_of "links" (set_sequence ?q ?x)) with (rows_of "links" x).
  rewrite rows_of_set_rows.
  destruct (String.eqb_spec "links" tbl) as [<- | Hl]; [|auto].
  rewrite Hs, find_table_links in Ht. injection Ht as <-.
  rewrite lookup_insert_Some. intros [[_ <-] | [_ H]]; [|auto].
  right. exact (check_constraints_links _ r d Hfk Hc).
Qed.

Lemma update_other_links (tbl : string) (id : Z) (r' : row) (d d' : db) :
  schema d = current_schema -> foreign_keys d = true -> tbl <> "notes" ->
  update_row tbl id r' d = Ok d' ->
  forall k l, rows_of "links" d' !! k = Some l ->
              rows_of "links" d !! k = Some l \/
              link_refers (rows_of "notes" d) l.
Proof.
  intros Hs Hfk Hne. unfold update_row.
  destruct (find_table tbl (schema d)) as [t|] eqn:Ht; [|discriminate].
  destruct (rows_of tbl d !! id) as [r|].
  2:{ intros [= <-]. auto. }
  destruct (check_constraints tbl t id r' d) eqn:Hc; [discriminate|].
  intros [= <-] k l. rewrite fire_other; [| exact Hs | exact Hne].
  rewrite rows_of_set_rows.
  destruct (String.eqb_spec "links" tbl) as [<- | Hl]; [|auto].
  rewrite Hs, find_table_links in Ht. injection Ht as <-.
  rewrite lookup_insert_Some. intros [[_ <-] | [_ H]]; [|auto].
  right. exact (check_constraints_links _ r' d Hfk Hc).
Qed.

Lemma delete_other_links (tbl : string) (id : Z) (d d' : db) :
  schema d = current_schema -> tbl <> "notes" ->
  delete_row tbl id d = Ok d' ->
  forall k l, rows_of "links" d' !! k = Some l ->
              rows_of "links" d !! k = Some l.
Proof.
  intros Hs Hne. unfold delete_row.
  destruct (find_table tbl (schema d)) as [t|]; [|discriminate].
  destruct (rows_of tbl d !! id) as [r|].
  2:{ intros [= <-]. auto. }
  intros H k l.
  destruct (after_delete_rows_untouched "links" (fun p => p <> "notes")
              links_safe_children trigger_depth tbl t (id, r)
              (set_rows tbl (delete id (rows_of tbl d)) d) d' Hne Hs H)
    as [_ ->].
  rewrite rows_of_set_rows.
  destruct (String.eqb_spec "links" tbl) as [<- | Hl]; [|auto].
  rewrite lookup_delete_Some. intros [_ Hk]. exact Hk.
Qed.

Lemma run_links_refer (s : statement) (d : db) :
  notes_invariant d -> links_refer_to_notes d ->
  links_refer_to_notes (run s d).
Proof.
  intros (Hs & Hfk & _ & _) Hlinks.
  unfold run. destruct (exec s d) as [d'|] eqn:E; [|exact Hlinks].
  destruct (decide (table_of s = "notes")) as [Ht | Ht].
  - destruct s as [tbl r | tbl id r | tbl id]; simpl in Ht, E; subst tbl.
    + destruct (insert_row "notes" r d) as [[id d0]|] eqn:Ei; [|discriminate].
      injection E as ->.
      destruct (insert_note_effect r d id d' Hs Ei)
        as (_ & _ & Hfresh & Hrows & _).
      intros k l. rewrite (Hrows "links"), (Hrows "notes"). simpl.
      intros Hk. apply (link_refers_mono (rows_of "notes" d));
        [|exact (Hlinks k l Hk)].
      intros j [x Hj]. rewrite lookup_insert_is_Some. 
      destruct (decide (id = j)); [left; assumption | right].
      split; [assumption | eauto].
    + destruct (update_note_effect id r d d' Hs E)
        as [[_ ->] | (r0 & Hr0 & _ & _ & Hrows & _)]; [exact Hlinks|].
      intros k l. rewrite (Hrows "links"), (Hrows "notes"). simpl.
      intros Hk. apply (link_refers_mono (rows_of "notes" d));
        [|exact (Hlinks k l Hk)].
      intros j [x Hj]. rewrite lookup_insert_is_Some.
      destruct (decide (id = j)); [left; assumption | right].
      split; [assumption | eauto].
    + destruct (rows_of "notes" d !! id) as [r|] eqn:Hr.
      * rewrite (delete_note id r d Hs Hfk Hr) in E. injection E as <-.
        destruct (note_deleted_rows id r d) as (_ & _ & Hn & Hl & _).
        intros k l'. rewrite Hl, Hn, lookup_fmap.
        destruct (filter _ (rows_of "links" d) !! k) as [l|] eqn:Hk;
          [|discriminate].
        apply map_lookup_filter_Some in Hk as [Hk Hsrc].
        unfold refers_to in Hsrc. simpl in Hsrc.
        intros [= <-]. destruct (Hlinks k l Hk) as [(s & Hls & Hin) Htgt].
        unfold set_null. case_decide as E.
        -- split.
           ++ exists s.
              split; [rewrite <- Hls; apply lookup_insert_ne; discriminate|].
              rewrite lookup_delete_is_Some.
              split; [congruence | exact Hin].
           ++ left. unfold val, row. rewrite lookup_insert_eq. reflexivity.
        -- split.
           ++ exists s. split; [exact Hls|]. rewrite lookup_delete_is_Some.
              split; [congruence | exact Hin].
           ++ destruct Htgt as [Hn' | (t & Ht' & Hin')]; [left; exact Hn'|].
              right. exists t. split; [exact Ht'|].
              rewrite lookup_delete_is_Some. split; [congruence | exact Hin'].
      * unfold delete_row in E. rewrite Hs, find_table_notes, Hr in E.
        injection E as <-. exact Hlinks.
  - assert (U : notes_untouched d d').
    { destruct s as [tbl r | tbl id r | tbl id]; simpl in Ht, E.
      - destruct (insert_row tbl r d) as [[id d0]|] eqn:Ei; [|discriminate].
        injection E as ->.
        exact (insert_other_untouched tbl r d id d' Hs Ht Ei).
      - exact (update_other_untouched tbl id r d d' Hs Ht E).
      - exact (delete_other_untouched tbl id d d' Hs Ht E). }
    destruct U as (_ & _ & _ & Un). intros k l Hk. rewrite Un.
    destruct s as [tbl r | tbl id r | tbl id]; simpl in Ht, E.
    + destruct (insert_row tbl r d) as [[id d0]|] eqn:Ei; [|discriminate].
      injection E as ->.
      destruct (insert_other_links tbl r d id d' Hs Hfk Ht Ei k l Hk)
        as [H | H]; [exact (Hlinks k l H) | exact H].
    + destruct (update_other_links tbl id r d d' Hs Hfk Ht E k l Hk)
        as [H | H]; [exact (Hlinks k l H) | exact H].
    + exact (Hlinks k l (delete_other_links tbl id d d' Hs Ht E k l Hk)).
Qed.

(** X4. After any sequence of inserts, updates and deletes on a migrated
    database opened with foreign keys on, every link row has a
    [source_id] that is the rowid of an existing note, and a [target_id]
    that is [NULL] or the rowid of an existing note: no link outlives its
    source, and no link points to a note that is gone. *)
Theorem links_always_refer_to_notes (stmts : list statement) :
  links_refer_to_notes (run_all stmts migrated_db).
Proof.
  assert (H : forall d, notes_invariant d -> links_refer_to_notes d ->
                        links_refer_to_notes (run_all stmts d)).
  { induction stmts as [|s stmts IH]; intros d Hinv Hl; simpl; [exact Hl|].
    apply IH; [apply run_invariant, Hinv | apply run_links_refer; assumption]. }
  apply H; [apply migrated_db_invariant|].
  intros id l Hl. assert (E : rows_of "links" migrated_db = ∅) by reflexivity.
  rewrite E, lookup_empty in Hl. discriminate.
Qed.

(** *** Collections and their associations *)

Definition collections_table : table :=
  Eval vm_compute in table_named "collections".

Lemma find_table_collections :
  find_table "collections" current_schema = Some collections_table.
Proof. reflexivity. Qed.

Lemma referencing_fks_collections :
  referencing_fks "collections" current_schema =
  [("notes_collections", notes_collections_table,
    references "collection_id" true "collections" Cascade, Cascade)].
Proof. reflexivity. Qed.

(** X5. With the schema of [Migrate] and foreign keys on: deleting a note
    removes exactly the associations of that note and keeps every
    collection; deleting a collection removes exactly the associations
    with that collection and keeps every note and every link. *)
Theorem associations_follow_their_owners (d : db) :
  schema d = current_schema -> foreign_keys d = true ->
  (forall N r,
      rows_of "notes" d !! N = Some r ->
      exists d',
        delete_row "notes" N d = Ok d' /\
        rows_of "notes_collections" d' =
          filter (fun kv => ~ refers_to "note_id" N kv)
                 (rows_of "notes_collections" d) /\
        rows_of "collections" d' = rows_of "collections" d) /\
  (forall C r,
      rows_of "collections" d !! C = Some r ->
      exists d',
        delete_row "collections" C d = Ok d' /\
        rows_of "collections" d' = delete C (rows_of "collections" d) /\
        rows_of "notes_collections" d' =
          filter (fun kv => ~ refers_to "collection_id" C kv)
                 (rows_of "notes_collections" d) /\
        rows_of "notes" d' = rows_of "notes" d /\
        rows_of "links" d' = rows_of "links" d /\
        fts_index d' = fts_index d).
Proof.
  intros Hs Hfk. split.
  - intros N r Hr. exists (note_deleted N r d).
    split; [apply delete_note; assumption|].
    unfold note_deleted.
    change (rows_of ?T (set_fts_docs ?n ?l ?x)) with (rows_of T x).
    rewrite !rows_of_set_rows. split; reflexivity.
  - intros C r Hr. unfold delete_row.
    rewrite Hs, find_table_collections, Hr. unfold trigger_depth.
    rewrite after_delete_unfold.
    cbn [foreign_keys schema set_rows set_data]. rewrite Hfk, Hs.
    rewrite referencing_fks_collections. cbn [foldl on_delete_action fst].
    rewrite cascade_leaf; [| | exact Hs].
    2:{ intros v d1 Hs1. apply after_delete_leaf;
          [assumption | apply referencing_fks_notes_collections
          | discriminate]. }
    rewrite fire_other; [| exact Hs | discriminate].
    eexists. split; [reflexivity|].
    rewrite !rows_of_set_rows. repeat split.
Qed.

(** [example_db] with the collection [tag/work] (rowid 1) associated with
    the note [a.md]. *)
Definition example_tagged_db : db :=
  after_insert "notes_collections"
    (list_to_map [("note_id", VInt 1); ("collection_id", VInt 1)])
    (after_insert "collections"
       (list_to_map [("kind", VText "tag"); ("name", VText "work")])
       example_db).

Lemma associations_follow_their_owners_witness :
  schema example_tagged_db = current_schema /\
  foreign_keys example_tagged_db = true /\
  size (rows_of "notes_collections" example_tagged_db) = 1%nat /\
  exists d',
    delete_row "notes" 1 example_tagged_db = Ok d' /\
    rows_of "notes_collections" d' = ∅ /\
    rows_of "collections" d' = rows_of "collections" example_tagged_db.
Proof.
  assert (Hs : schema example_tagged_db = current_schema)
    by (vm_compute; reflexivity).
  assert (Hfk : foreign_keys example_tagged_db = true)
    by (vm_compute; reflexivity).
  split; [exact Hs|]. split; [exact Hfk|].
  split; [vm_compute; reflexivity|].
  destruct (proj1 (associations_follow_their_owners example_tagged_db Hs Hfk)
              1 (example_note "a.md" "A" "to b"))
    as (d' & Hd & Hnc & Hc); [vm_compute; reflexivity|].
  exists d'. split; [exact Hd|]. split; [|exact Hc].
  rewrite Hnc. vm_compute. reflexivity.
Defined.

End sqlite.

(** ** The container ([package adapter]) *)

Module adapter.

Import sqlite.

Section Container.

(** The types of [note.IndexingStats], of the Markdown parser, of the
    [note.Indexer] handed to [note.Index], and of the notebook
    configuration. *)
Context {Config IndexingStats Parser Indexer : Type}.

(** The zero value of [note.IndexingStats] ([var stats]). *)
Variable zero_stats : IndexingStats.

(** Failures of the SQL driver. *)
Variable driver_error : stmt -> db -> option error.
Variable query_error : db -> option error.
Variable open_error : db -> option error.

(** Modelled from the spec: [note.Index], whose code is not in the sources
    at hand.  It runs entirely inside the store transaction that encloses
    it, applying the inserts, updates and deletes of one index run to the
    database that the transaction sees, and returns the statistics
    together with the first store-level error, if any.  Its arguments are
    those of the call in [Container.index]: the notebook, [force], the
    parser and the indexer (the logger and the progress callback do not
    touch the store). *)
Variable note_Index :
  @zk.Zk Config -> bool -> Parser -> option Indexer -> db ->
  db * (IndexingStats * option error).

(** The fields of [Container] read below: the pair [(c.zk, c.zkErr)] as
    [OpenNotebook] leaves it, and the parser that [c.Parser()] builds from
    the configuration. *)
Record Container := mkContainer {
  zk_open : result (@zk.Zk Config);
  Parser_ : Parser
}.

(** [func (c *Container) index(db *sqlite.DB, force bool)]: the database
    afterwards, then the two results.  The closure passed to
    [WithTransaction] assigns the captured [stats] and returns the error
    of [note.Index], which receives a nil indexer. *)
Definition index (c : Container) (d : db) (force : bool)
  : db * (IndexingStats * option error) :=
  match zk_open c with
  | Err zkErr => (d, (zero_stats, Some zkErr))
  | Ok zk =>
      let callback : Tx IndexingStats unit := fun s =>
        let '(d1, (stats, err)) :=
          note_Index zk force (Parser_ c) None (tx_db s) in
        (mkTx d1 stats,
         match err with None => Ok tt | Some e => Err e end) in
      let '(d', stats, err) := WithTransaction d zero_stats callback in
      (d', (stats, err))
  end.

(** [func (c *Container) Database(forceIndexing bool)]: the database
    afterwards, then the three results ([stored] is the database file of
    the notebook, at [c.zk.DBPath()]). *)
Definition Database (c : Container) (forceIndexing : bool) (stored : db)
  : db * (option db * IndexingStats * option error) :=
  match zk_open c with
  | Err zkErr => (stored, (None, zero_stats, Some zkErr))
  | Ok _ =>
      match open open_error stored with
      | Err err => (stored, (None, zero_stats, Some err))
      | Ok d =>
          let '(d1, needsReindexing, err) :=
            Migrate driver_error query_error d in
          match Wrap err "failed to migrate the database" with
          | Some err => (d1, (None, zero_stats, Some err))
          | None =>
              let '(d2, (stats, err)) :=
                index c d1 (forceIndexing || needsReindexing) in
              match err with
              | Some err => (d2, (None, stats, Some err))
              | None => (d2, (Some d2, stats, None))
              end
          end
      end
  end.




End Container.

(** *** Opening the first notebook of a list of search paths *)

Section OpenNotebook.

Context {fs Config Notebook : Type}.
Variable DirExists : fs -> zk.abs_path -> bool * option error.
Variable OpenConfig : fs -> zk.abs_path -> Config -> result Config.
(** [c.NotebookStore.OpenNotebook(path)] *)
Variable NotebookStore_OpenNotebook : fs -> zk.abs_path -> result Notebook.

(** The fields of [Container] that [OpenNotebook] reads and writes, and
    the environment variable [ZK_NOTEBOOK_DIR].  The pairs
    [(c.notebook, c.notebookErr)] and [(c.zk, c.zkErr)] are [None] as long
    as both of their sides are nil; [WorkingDir] is [None] while it is the
    empty string. *)
Record Located := mkLocated {
  notebook : option (result Notebook);
  zk_ : option (result (@zk.Zk Config));
  WorkingDir : option zk.abs_path;
  Config_ : Config;
  ZK_NOTEBOOK_DIR : option zk.abs_path
}.

(** The loop of [OpenNotebook]. *)
Fixpoint OpenNotebook_loop (w : fs) (c : Located)
  (searchPaths : list zk.abs_path) : Located :=
  match searchPaths with
  | [] => c
  | path :: rest =>
      let nb := NotebookStore_OpenNotebook w path in
      let z := zk.Open DirExists OpenConfig w path (Config_ c) in
      match nb, z with
      | Ok _, Ok opened =>
          mkLocated (Some nb) (Some z) (Some path) (zk.Config_ opened)
            (Some (zk.Path opened))
      | _, _ =>
          OpenNotebook_loop w
            (mkLocated (Some nb) (Some z) (WorkingDir c) (Config_ c)
               (ZK_NOTEBOOK_DIR c))
            rest
      end
  end.

(** [func (c *Container) OpenNotebook(searchPaths []string)]; [None]
    stands for the panic on an empty list. *)
Definition OpenNotebook (w : fs) (c : Located)
  (searchPaths : list zk.abs_path) : option Located :=
  match searchPaths with
  | [] => None
  | _ :: _ => Some (OpenNotebook_loop w c searchPaths)
  end.

(** Both the notebook store and [zk.Open] open the notebook at [path]. *)
Definition opens (w : fs) (config : Config) (path : zk.abs_path) : Prop :=
  (exists nb, NotebookStore_OpenNotebook w path = Ok nb) /\
  (exists z, zk.Open DirExists OpenConfig w path config = Ok z).

Lemma OpenNotebook_loop_skip (w : fs) (c : Located)
  (pre rest : list zk.abs_path) :
  Forall (fun p => ~ opens w (Config_ c) p) pre -> pre <> [] ->
  OpenNotebook_loop w c (pre ++ rest) =
  OpenNotebook_loop w
    (mkLocated
       (Some (NotebookStore_OpenNotebook w (List.last pre [])))
       (Some (zk.Open DirExists OpenConfig w (List.last pre []) (Config_ c)))
       (WorkingDir c) (Config_ c) (ZK_NOTEBOOK_DIR c))
    rest.
Proof.
  intros Hpre. revert c Hpre.
  induction pre as [|p pre IH]; intros c Hpre Hne; [contradiction|].
  apply Forall_cons in Hpre as [Hp Hpre]. simpl.
  assert (Hstep :
    match NotebookStore_OpenNotebook w p,
          zk.Open DirExists OpenConfig w p (Config_ c) with
    | Ok _, Ok opened =>
        mkLocated (Some (NotebookStore_OpenNotebook w p))
          (Some (zk.Open DirExists OpenConfig w p (Config_ c))) (Some p)
          (zk.Config_ opened) (Some (zk.Path opened))
    | _, _ =>
        OpenNotebook_loop w
          (mkLocated (Some (NotebookStore_OpenNotebook w p))
             (Some (zk.Open DirExists OpenConfig w p (Config_ c)))
             (WorkingDir c) (Config_ c) (ZK_NOTEBOOK_DIR c))
          (pre ++ rest)
    end
    = OpenNotebook_loop w
        (mkLocated (Some (NotebookStore_OpenNotebook w p))
           (Some (zk.Open DirExists OpenConfig w p (Config_ c)))
           (WorkingDir c) (Config_ c) (ZK_NOTEBOOK_DIR c))
        (pre ++ rest)).
  { destruct (NotebookStore_OpenNotebook w p) as [nb|] eqn:En;
      [|reflexivity].
    destruct (zk.Open DirExists OpenConfig w p (Config_ c)) as [z|] eqn:Ez;
      [|reflexivity].
    exfalso. apply Hp. split; eauto. }
  rewrite Hstep. destruct pre as [|p' pre]; [reflexivity|].
  rewrite IH; [reflexivity | exact Hpre | discriminate].
Qed.

Lemma OpenNotebook_nonempty (w : fs) (c : Located)
  (searchPaths : list zk.abs_path) :
  searchPaths <> [] ->
  OpenNotebook w c searchPaths = Some (OpenNotebook_loop w c searchPaths).
Proof. destruct searchPaths; [contradiction | reflexivity]. Qed.

(** X17. [OpenNotebook] panics on an empty list.  Otherwise the container
    ends with the first search path at which both the notebook store and
    [zk.Open] succeed, every attempt being made with the configuration
    the container had at the call: the working directory becomes that
    path, the configuration that of the notebook, and [ZK_NOTEBOOK_DIR]
    its root.  When no path opens, the container keeps its working
    directory, configuration and environment, and holds the results of the
    last path tried. *)
Theorem OpenNotebook_first_that_opens (w : fs) (c : Located)
  (pre post : list zk.abs_path) (path : zk.abs_path) :
  Forall (fun p => ~ opens w (Config_ c) p) pre ->
  OpenNotebook w c [] = None /\
  (forall nb z,
      NotebookStore_OpenNotebook w path = Ok nb ->
      zk.Open DirExists OpenConfig w path (Config_ c) = Ok z ->
      OpenNotebook w c (pre ++ path :: post) =
      Some (mkLocated (Some (Ok nb)) (Some (Ok z)) (Some path)
              (zk.Config_ z) (Some (zk.Path z)))) /\
  (~ opens w (Config_ c) path ->
   OpenNotebook w c (pre ++ [path]) =
   Some (mkLocated (Some (NotebookStore_OpenNotebook w path))
           (Some (zk.Open DirExists OpenConfig w path (Config_ c)))
           (WorkingDir c) (Config_ c) (ZK_NOTEBOOK_DIR c))).
Proof.
  intros Hpre. split; [reflexivity|]. split.
  - intros nb z Hnb Hz.
    assert (E : forall c', Config_ c' = Config_ c ->
                OpenNotebook_loop w c' (path :: post) =
                mkLocated (Some (Ok nb)) (Some (Ok z)) (Some path)
                  (zk.Config_ z) (Some (zk.Path z))).
    { intros c' Hc. simpl. rewrite Hc, Hnb, Hz. reflexivity. }
    rewrite OpenNotebook_nonempty by (destruct pre; discriminate).
    f_equal. destruct pre as [|p pre]; [apply E; reflexivity|].
    rewrite OpenNotebook_loop_skip; [|exact Hpre | discriminate].
    apply E. reflexivity.
  - intros Hpath.
    assert (Hall : Forall (fun p => ~ opens w (Config_ c) p) (pre ++ [path])).
    { apply Forall_app. split; [exact Hpre|]. apply Forall_singleton.
      exact Hpath. }
    rewrite OpenNotebook_nonempty by (destruct pre; discriminate).
    f_equal. rewrite <- (app_nil_r (pre ++ [path])).
    rewrite OpenNotebook_loop_skip; [| exact Hall | destruct pre; discriminate].
    simpl. rewrite List.last_last. reflexivity.
Qed.

End OpenNotebook.

Lemma OpenNotebook_first_that_opens_witness :
  let store := fun (w : zk.simple_fs) (p : zk.abs_path) =>
                 zk.locateRoot zk.simple_DirExists w p in
  let c := mkLocated None None None tt None in
  Forall (fun p => ~ opens zk.simple_DirExists zk.simple_OpenConfig store
                     zk.home_notebook_fs tt p) [["tmp"]] /\
  OpenNotebook zk.simple_DirExists zk.simple_OpenConfig store
    zk.home_notebook_fs c [["tmp"]; ["home"; "nb"; "daily"]; ["home"; "nb"]]
  = Some (mkLocated (Some (Ok ["home"; "nb"]))
            (Some (Ok (zk.mkZk ["home"; "nb"] tt ["home"; "nb"; "daily"])))
            (Some ["home"; "nb"; "daily"]) tt (Some ["home"; "nb"])).
Proof.
  cbv zeta.
  assert (Hpre :
    Forall (fun p => ~ opens zk.simple_DirExists zk.simple_OpenConfig
                       (fun w p => zk.locateRoot zk.simple_DirExists w p)
                       zk.home_notebook_fs tt p) [["tmp"]]).
  { apply Forall_singleton. intros [[nb Hnb] _]. vm_compute in Hnb.
    discriminate. }
  split; [exact Hpre|].
  apply (proj1 (proj2 (OpenNotebook_first_that_opens zk.simple_DirExists
                         zk.simple_OpenConfig
                         (fun w p => zk.locateRoot zk.simple_DirExists w p)
                         zk.home_notebook_fs
                         (mkLocated None None None tt None)
                         [["tmp"]] [["home"; "nb"]] ["home"; "nb"; "daily"]
                         Hpre)));
    vm_compute; reflexivity.
Defined.

(** *** [Database]: what its failures leave behind *)

Section DatabaseFailures.

Context {Config IndexingStats Parser Indexer : Type}.
Variable zero_stats : IndexingStats.
Variable driver_error : stmt -> db -> option error.
Variable query_error : db -> option error.
Variable open_error : db -> option error.
Variable note_Index :
  @zk.Zk Config -> bool -> Parser -> option Indexer -> db ->
  db * (IndexingStats * option error).

(** X18. [Database] gives up before any indexing, with the zero statistics
    and no database handle, when the notebook could not be opened (the
    database file is not even opened), when the database cannot be
    opened, and when the migration fails; in that last case the error is
    wrapped as "failed to migrate the database" and the database is left
    as it was opened. *)
Theorem Database_gives_up_early (c : @Container Config Parser)
  (forceIndexing : bool) (stored : db) :
  (forall zkErr,
      zk_open c = Err zkErr ->
      Database zero_stats driver_error query_error open_error note_Index
        c forceIndexing stored
      = (stored, (None, zero_stats, Some zkErr))) /\
  (forall zk err,
      zk_open c = Ok zk -> open_error stored = Some err ->
      Database zero_stats driver_error query_error open_error note_Index
        c forceIndexing stored
      = (stored, (None, zero_stats,
                  Some (Wrapped "failed to open the database" err)))) /\
  (forall zk d d' needsReindexing err,
      zk_open c = Ok zk -> open open_error stored = Ok d ->
      Migrate driver_error query_error d = (d', needsReindexing, Some err) ->
      Database zero_stats driver_error query_error open_error note_Index
        c forceIndexing stored
      = (d, (None, zero_stats,
             Some (Wrapped "failed to migrate the database" err))) /\
      d = set_foreign_keys true stored /\
      exists cause, err = Wrapped "database migration failed" cause).
Proof.
  split; [|split].
  - intros zkErr Hzk. unfold Database. rewrite Hzk. reflexivity.
  - intros zk err Hzk Ho. unfold Database, open. rewrite Hzk, Ho.
    reflexivity.
  - intros zk d d' nr err Hzk Ho HM.
    assert (Hd : d' = d /\
                 exists cause, err = Wrapped "database migration failed" cause).
    { rewrite Migrate_unfold in HM. destruct (query_error d) as [e|].
      - injection HM as <- _ <-. eauto.
      - destruct (exec_stmts driver_error (pending_stmts (user_version d)) d)
          as [d1 [e|]]; [|discriminate].
        injection HM as <- _ <-. eauto. }
    destruct Hd as [-> Hcause].
    split; [|split; [exact (open_Ok open_error stored d Ho) | exact Hcause]].
    unfold Database. rewrite Hzk, Ho, HM. reflexivity.
Qed.


End DatabaseFailures.




(** *** Paging the output *)

Section Paginate.

(** The pager type, [pager.PassthroughPager], [pager.New] and whether the
    terminal is interactive. *)
Context {Pager : Type}.
Variable PassthroughPager : Pager.
Variable pager_New : opt.String -> result Pager.
Variable IsInteractive : bool.

(** What happens to pagers: [run] writes to one, [Close] closes it. *)
Inductive pager_event : Type :=
| Written (p : Pager) (out : string)
| Closed (p : Pager).

(** [func (c *Container) pager(noPager bool)]; [toolPager] is
    [c.Config.Tool.Pager]. *)
Definition pager (toolPager : opt.String) (noPager : bool) : result Pager :=
  if noPager || negb IsInteractive then Ok PassthroughPager
  else pager_New toolPager.

(** [func (c *Container) Paginate(noPager bool, run func(out io.Writer)
    error) error]: the events so far and afterwards, and the error. *)
Definition Paginate (toolPager : opt.String) (noPager : bool)
  (run : Pager -> list pager_event -> list pager_event * option error)
  (events : list pager_event) : list pager_event * option error :=
  match pager toolPager (noPager || opt.IsEmpty toolPager) with
  | Err err => (events, Some err)
  | Ok p =>
      let (events', err) := run p events in
      (events' ++ [Closed p], err)
  end.

(** X20. The output passes through, unpaged, exactly in three cases besides a
    pager that is itself the pass-through one: paging was declined, the
    pager setting is the empty string, or the terminal is not
    interactive.  A pager setting that is absent (null) does not turn
    paging off.  Whatever [run] returns, the pager it wrote to is closed
    afterwards and the error of [run] is the result; and when no pager
    can be made, [run] is not called at all. *)
Theorem Paginate_closes_pager (toolPager : opt.String) (noPager : bool)
  (run : Pager -> list pager_event -> list pager_event * option error)
  (events : list pager_event) :
  (noPager = true \/ opt.Value toolPager = Some "" \/ IsInteractive = false ->
   pager toolPager (noPager || opt.IsEmpty toolPager) = Ok PassthroughPager) /\
  (noPager = false -> opt.Value toolPager <> Some "" ->
   IsInteractive = true ->
   pager toolPager (noPager || opt.IsEmpty toolPager) = pager_New toolPager) /\
  (forall p events' err,
      pager toolPager (noPager || opt.IsEmpty toolPager) = Ok p ->
      run p events = (events', err) ->
      Paginate toolPager noPager run events = (events' ++ [Closed p], err)) /\
  (forall err,
      pager toolPager (noPager || opt.IsEmpty toolPager) = Err err ->
      Paginate toolPager noPager run events = (events, Some err)).
Proof.
  split; [|split; [|split]].
  - unfold pager. intros [-> | [H | Hi]].
    + reflexivity.
    + apply opt.IsEmpty_spec in H. rewrite H, orb_true_r. reflexivity.
    + rewrite Hi, orb_true_r. reflexivity.
  - intros -> Hne Hi. unfold pager. rewrite Hi.
    destruct (opt.IsEmpty toolPager) eqn:E; [|reflexivity].
    apply opt.IsEmpty_spec in E. contradiction.
  - intros p events' err Hp Hr. unfold Paginate. rewrite Hp, Hr.
    reflexivity.
  - intros err Hp. unfold Paginate. rewrite Hp. reflexivity.
Qed.

End Paginate.

End adapter.
